(** * Sumway: score combination and decomposition engine

    A shallow embedding of [src/App.tsx]: the sum generator
    ([calculateCartesianSum]), the hierarchy evaluator ([validate],
    [calculateCombinations]), the decomposition search
    ([findItemCombinations], [findElementCombinations]), the balance selector
    ([calculateStdDev], [selectBalancedCombination]), the React state with
    its handlers (hierarchy edits, student records, CSV export) and the
    [Autocomplete] component.

    Conventions of the embedding.
    - A JavaScript [number] is an integer or [NaN]; fractions, infinities and
      the loss of precision beyond 2^53 are outside the model.
    - Numbers that [calculateStdDev] produces are rationals, and the square
      root it returns is kept symbolic (see [stddev]): arithmetic there is
      exact instead of binary64.
    - The component state is a record; a handler maps the state of the render
      it was created in to the state after its setters have run.
    - [Math.random] reads from an explicit stream of draws.
    - Rendering, [updateNumber] (text parsing), the reading of
      [localStorage] at start-up and the download of the CSV file are not
      modelled; of the CSV export the text of the file is.  The builtin
      [Number], which the [Autocomplete] component calls, is a parameter. *)

From Stdlib Require Import ZArith QArith Qround Lqa.
From stdpp Require Import base decidable option list numbers strings pretty sorting.

(** ** JavaScript primitives *)

Inductive number : Type :=
  | Num (z : Z)
  | NaN.

#[global] Instance number_eq_dec : EqDecision number.
Proof. solve_decision. Defined.

Module Js.

(** [a + b] *)
Definition add (a b : number) : number :=
  match a, b with
  | Num x, Num y => Num (x + y)
  | _, _ => NaN
  end.

(** [a - b] *)
Definition sub (a b : number) : number :=
  match a, b with
  | Num x, Num y => Num (x - y)
  | _, _ => NaN
  end.

(** [a <= b]: false as soon as one side is [NaN]. *)
Definition leb (a b : number) : bool :=
  match a, b with
  | Num x, Num y => (x <=? y)%Z
  | _, _ => false
  end.

(** [a > b] *)
Definition gtb (a b : number) : bool :=
  match a, b with
  | Num x, Num y => (y <? x)%Z
  | _, _ => false
  end.

(** [a === b]: [NaN] is not equal to itself. *)
Definition strict_eq (a b : number) : bool :=
  match a, b with
  | Num x, Num y => (x =? y)%Z
  | _, _ => false
  end.

Definition isNaN (a : number) : bool :=
  match a with
  | Num _ => false
  | NaN => true
  end.

(** What [Array.prototype.sort] makes of the value a [comparefn] returns:
    negative, zero or positive, with [NaN] read as zero. *)
Definition sign (v : number) : comparison :=
  match v with
  | Num z => (z ?= 0)%Z
  | NaN => Eq
  end.

(** [arr[i]] where the result is used as a number: reading past the end
    gives [undefined], which [<=] converts to [NaN] and which is never
    [===] to a number, so it behaves as [NaN] does. *)
Definition index (arr : list number) (i : nat) : number :=
  default NaN (arr !! i).

Section ArraySort.
Context {A : Type} (comparefn : A → A → comparison).

(** [x] goes in front of the first element it does not have to follow. *)
Fixpoint sort_insert (x : A) (l : list A) : list A :=
  match l with
  | [] => [x]
  | y :: l' =>
      match comparefn x y with
      | Gt => y :: sort_insert x l'
      | _ => x :: l
      end
  end.

(** [arr.sort(comparefn)]: the sort is stable (ECMAScript 2019), which
    for a consistent [comparefn] fixes the result; it is computed here by
    insertion from the right.  For an inconsistent [comparefn] the
    language leaves the order to the implementation. *)
Definition Array_sort (l : list A) : list A := foldr sort_insert [] l.
End ArraySort.

(** [set.add(x)] on a [Set] kept as the list of its members in insertion
    order; membership is SameValueZero, under which [NaN] equals [NaN]. *)
Definition Set_add (s : list number) (x : number) : list number :=
  if bool_decide (x ∈ s) then s else s ++ [x].

(** [[...new Set(arr)]] *)
Definition new_Set (arr : list number) : list number := foldl Set_add [] arr.

(** A value of [Math.random()]: the rational [numer / (numer + gap + 1)],
    which ranges over the rationals of the interval [0, 1). *)
Record draw : Type := Draw { numer : nat; gap : nat }.

Definition draw_value (d : draw) : Q :=
  (Z.of_nat (numer d) # Pos.of_succ_nat (numer d + gap d))%Q.

(** The source of randomness: the draws that the coming calls of
    [Math.random] return. *)
Definition rng : Type := nat → draw.

Definition Math_random (g : rng) : Q * rng :=
  (draw_value (g 0%nat), λ n, g (S n)).

(** [Math.floor] and [Math.ceil] of a non-negative quantity, as an index. *)
Definition Math_floor (q : Q) : nat := Z.to_nat (Qfloor q).
Definition Math_ceil (q : Q) : nat := Z.to_nat (Qceiling q).

Definition of_nat (n : nat) : Q := inject_Z (Z.of_nat n).

End Js.

(** ** Data of the component *)

Definition EvaluationElement : Type := list number.
Definition Item : Type := list EvaluationElement.

Record Results : Type := mkResults {
  itemResults : list (list number);
  totalResult : list number;
}.

Record Student : Type := mkStudent {
  id : nat;
  name : string;
  totalScore : option number;
  itemScores : list number;
  elementScores : list (list number);
}.

(** The [useState] cells of [App], and the [sumway-items] entry of
    [localStorage] ([None] when absent).  The [sumway-students] entry is
    rewritten from [students] and [nextStudentId] after every render and is
    therefore not a cell of its own. *)
Record AppState : Type := mkAppState {
  items : list Item;
  results : option Results;
  error : option string;
  students : list Student;
  nextStudentId : nat;
  storedItems : option (list Item);
}.

Definition setItems (v : list Item) (st : AppState) : AppState :=
  mkAppState v (results st) (error st) (students st) (nextStudentId st) (storedItems st).
Definition setResults (v : option Results) (st : AppState) : AppState :=
  mkAppState (items st) v (error st) (students st) (nextStudentId st) (storedItems st).
Definition setError (v : option string) (st : AppState) : AppState :=
  mkAppState (items st) (results st) v (students st) (nextStudentId st) (storedItems st).
Definition setStudents (v : list Student) (st : AppState) : AppState :=
  mkAppState (items st) (results st) (error st) v (nextStudentId st) (storedItems st).
Definition setNextStudentId (v : nat) (st : AppState) : AppState :=
  mkAppState (items st) (results st) (error st) (students st) v (storedItems st).
Definition setStoredItems (v : option (list Item)) (st : AppState) : AppState :=
  mkAppState (items st) (results st) (error st) (students st) (nextStudentId st) v.

(** ** Decomposition search *)

(** [backtrack] of [findItemCombinations].  [rest] is
    [itemResults.slice(index)], so that [index === itemResults.length] is
    [rest = []]; [current.push(score)] ... [current.pop()] around the
    recursive call is the call on [current ++ [score]]; the array
    [combinations] that the closure appends to is threaded through. *)
Fixpoint findItemCombinations_backtrack (targetSum : number)
    (rest : list (list number)) (currentSum : number) (current : list number)
    (combinations : list (list number)) : list (list number) :=
  match rest with
  | [] =>
      if Js.strict_eq currentSum targetSum
      then combinations ++ [current]
      else combinations
  | scores :: rest' =>
      foldl (λ combinations score,
               if Js.leb (Js.add currentSum score) targetSum
               then findItemCombinations_backtrack targetSum rest'
                      (Js.add currentSum score) (current ++ [score]) combinations
               else combinations)
            combinations scores
  end.

Definition findItemCombinations (targetSum : number)
    (itemResults : list (list number)) : list (list number) :=
  findItemCombinations_backtrack targetSum itemResults (Num 0) [] [].

(** [backtrack] of [findElementCombinations], read as the one above. *)
Fixpoint findElementCombinations_backtrack (targetSum : number)
    (rest : list (list number)) (currentSum : number) (current : list number)
    (combinations : list (list number)) : list (list number) :=
  match rest with
  | [] =>
      if Js.strict_eq currentSum targetSum
      then combinations ++ [current]
      else combinations
  | scores :: rest' =>
      foldl (λ combinations score,
               if Js.leb (Js.add currentSum score) targetSum
               then findElementCombinations_backtrack targetSum rest'
                      (Js.add currentSum score) (current ++ [score]) combinations
               else combinations)
            combinations scores
  end.

Definition findElementCombinations (targetSum : number)
    (elements : list (list number)) : list (list number) :=
  findElementCombinations_backtrack targetSum elements (Num 0) [] [].

(** ** Balance selector *)

(** The numbers inside [calculateStdDev]: a rational, or NaN. *)
Inductive fraction : Type :=
  | Frac (q : Q)
  | FNaN.

Definition fraction_of (a : number) : fraction :=
  match a with
  | Num z => Frac (inject_Z z)
  | NaN => FNaN
  end.

Definition fraction_add (a b : fraction) : fraction :=
  match a, b with
  | Frac x, Frac y => Frac (x + y)%Q
  | _, _ => FNaN
  end.

Definition fraction_sub (a b : fraction) : fraction :=
  match a, b with
  | Frac x, Frac y => Frac (x - y)%Q
  | _, _ => FNaN
  end.

(** [a / n] for an array length [n], which is not zero where it is used. *)
Definition fraction_div (a : fraction) (n : nat) : fraction :=
  match a with
  | Frac x => Frac (x / Js.of_nat n)%Q
  | FNaN => FNaN
  end.

(** [Math.pow(a, 2)] *)
Definition fraction_square (a : fraction) : fraction :=
  match a with
  | Frac x => Frac (x * x)%Q
  | FNaN => FNaN
  end.

(** The value of [Math.sqrt(radicand)], kept as its argument. *)
Inductive stddev : Type :=
  | Sqrt (radicand : fraction).

(** The sign of [a - b] for two values of [Math.sqrt]: the radicands are
    means of squares, so not negative, and the square root is increasing on
    them, so it is the sign of the difference of the radicands; the
    difference is NaN, which [sort] reads as zero, when a side is NaN. *)
Definition stddev_sub_sign (a b : stddev) : comparison :=
  match a, b with
  | Sqrt (Frac x), Sqrt (Frac y) => Qcompare x y
  | _, _ => Eq
  end.

Definition calculateStdDev (arr : list number) : stddev :=
  if (length arr =? 0)%nat then Sqrt (Frac 0)
  else
    let mean :=
      fraction_div (foldl (λ a b, fraction_add a (fraction_of b)) (Frac 0) arr)
                   (length arr) in
    let squaredDiffs :=
      map (λ x, fraction_square (fraction_sub (fraction_of x) mean)) arr in
    Sqrt (fraction_div (foldl fraction_add (Frac 0) squaredDiffs) (length arr)).

(** An entry of [withStdDev]. *)
Record scored : Type := mkScored {
  combo : list number;
  stdDev : stddev;
}.

(** [Math.max(1, Math.ceil(n * 0.3))] *)
Definition topCount_of (n : nat) : nat :=
  Nat.max 1 (Js.Math_ceil (Js.of_nat n * (3 # 10))%Q).

(** [Math.random] is called only when there are two candidates or more.  The
    index [randomIndex] is within [topCombinations] (lemma
    [randomIndex_in_range]), so the default of [nth] is never returned. *)
Definition selectBalancedCombination (combinations : list (list number))
    (g : Js.rng) : list number * Js.rng :=
  match combinations with
  | [] => ([], g)
  | [only] => (only, g)
  | _ =>
      let withStdDev :=
        map (λ combo, mkScored combo (calculateStdDev combo)) combinations in
      let sorted :=
        Js.Array_sort (λ a b, stddev_sub_sign (stdDev a) (stdDev b)) withStdDev in
      let topCount := topCount_of (length sorted) in
      let topCombinations := take topCount sorted in
      let '(r, g') := Js.Math_random g in
      let randomIndex := Js.Math_floor (r * Js.of_nat (length topCombinations))%Q in
      (nth randomIndex (map combo topCombinations) [], g')
  end.

(** ** Sum generator and hierarchy evaluator *)

Definition calculateCartesianSum (sets : list (list number)) : list number :=
  match sets with
  | [] => []
  | first :: others =>
      let sums :=
        foldl (λ sums set_i,
                 flat_map (λ sum, map (λ num, Js.add sum num) set_i) sums)
              first others in
      Js.Array_sort (λ a b, Js.sign (Js.sub b a)) (Js.new_Set sums)
  end.

(** The message [validate] hands to [setError] for the 1-based position
    [(i, j, k)]. *)
Definition invalid_message (i j k : nat) : string :=
  "항목 " +:+ pretty i +:+ "의 평가 요소 " +:+ pretty j +:+ "의 " +:+ pretty k
  +:+ "번째 숫자가 유효하지 않습니다. (0 초과 숫자 필요)".

(** The innermost loop of [validate], from index [k] on. *)
Fixpoint validate_numbers (i j k : nat) (nums : list number) : option string :=
  match nums with
  | [] => None
  | num :: nums' =>
      if Js.leb num (Num 0) || Js.isNaN num
      then Some (invalid_message (i + 1) (j + 1) (k + 1))
      else validate_numbers i j (S k) nums'
  end.

(** The loop over the elements of item [i], from index [j] on. *)
Fixpoint validate_elements (i j : nat) (elements : list EvaluationElement)
    : option string :=
  match elements with
  | [] => None
  | element :: elements' =>
      match validate_numbers i j 0 element with
      | Some message => Some message
      | None => validate_elements i (S j) elements'
      end
  end.

(** The loop over the items, from index [i] on. *)
Fixpoint validate_items (i : nat) (its : list Item) : option string :=
  match its with
  | [] => None
  | item :: its' =>
      match validate_elements i 0 item with
      | Some message => Some message
      | None => validate_items (S i) its'
      end
  end.

(** [validate()]: [Some message] is [setError(message); return false], and
    [None] is [return true]. *)
Definition validate (its : list Item) : option string := validate_items 0 its.

Definition calculateCombinations (st : AppState) : AppState :=
  match validate (items st) with
  | Some message => setError (Some message) st
  | None =>
      let itemResults := map calculateCartesianSum (items st) in
      let totalResult := calculateCartesianSum itemResults in
      setError None
        (setResults (Some (mkResults itemResults totalResult))
           (setNextStudentId 1
              (setStudents []
                 (setStoredItems (Some (items st)) st))))
  end.

(** ** Student records *)

Definition addStudent (st : AppState) : AppState :=
  setNextStudentId (nextStudentId st + 1)
    (setStudents
       (students st ++
          [mkStudent (nextStudentId st) ("학생 " +:+ pretty (nextStudentId st))
             None [] []])
       st).

Definition removeStudent (target : nat) (st : AppState) : AppState :=
  setStudents (filter (λ s, id s ≠ target) (students st)) st.

Definition updateStudentName (target : nat) (new_name : string)
    (st : AppState) : AppState :=
  setStudents
    (map (λ s, if (id s =? target)%nat
               then mkStudent (id s) new_name (totalScore s) (itemScores s)
                      (elementScores s)
               else s)
         (students st))
    st.

(** The loop of [updateStudentTotalScore] that fills [elementScores], from
    item index [i] on: [its] is [items.slice(i)]. *)
Fixpoint assignElementScores (selectedItemScores : list number) (i : nat)
    (its : list Item) (elementScores : list (list number)) (g : Js.rng)
    : list (list number) * Js.rng :=
  match its with
  | [] => (elementScores, g)
  | item :: its' =>
      let elementCombinations :=
        findElementCombinations (Js.index selectedItemScores i) item in
      let '(selectedElements, g') :=
        selectBalancedCombination elementCombinations g in
      assignElementScores selectedItemScores (S i) its'
        (elementScores ++ [selectedElements]) g'
  end.

(** [score] is [None] for [null].  The handler returns the state it was
    given when it returns before calling [setStudents]. *)
Definition updateStudentTotalScore (target : nat) (score : option number)
    (st : AppState) (g : Js.rng) : AppState * Js.rng :=
  match score, results st with
  | Some score, Some results =>
      let itemCombinations := findItemCombinations score (itemResults results) in
      if (length itemCombinations =? 0)%nat then (st, g)
      else
        let '(selectedItemScores, g1) :=
          selectBalancedCombination itemCombinations g in
        let '(elementScores, g2) :=
          assignElementScores selectedItemScores 0 (items st) [] g1 in
        (setStudents
           (map (λ s, if (id s =? target)%nat
                      then mkStudent (id s) (name s) (Some score)
                             selectedItemScores elementScores
                      else s)
                (students st))
           st,
         g2)
  | _, _ =>
      (setStudents
         (map (λ s, if (id s =? target)%nat
                    then mkStudent (id s) (name s) None [] []
                    else s)
              (students st))
         st,
       g)
  end.

(** ** Editing the hierarchy *)

Definition clearResults (st : AppState) : AppState :=
  setError None (setResults None st).

Definition resetAll (st : AppState) : AppState :=
  mkAppState [[[Num 0]]] None None [] 1 None.

Definition addItem (st : AppState) : AppState :=
  clearResults (setItems (items st ++ [[[Num 0]]]) st).

(** [items.filter((_, i) => i !== itemIndex)] is [delete itemIndex items],
    which leaves the list as it is when the index is past the end. *)
Definition removeItem (itemIndex : nat) (st : AppState) : AppState :=
  if (length (items st) <=? 1)%nat then st
  else clearResults (setItems (delete itemIndex (items st)) st).

(** In the handlers below an index past the end makes the handler read a
    property of [undefined]: it throws before any setter is called, and the
    state stays as it was. *)
Definition addEvaluationElement (itemIndex : nat) (st : AppState) : AppState :=
  match items st !! itemIndex with
  | None => st
  | Some item =>
      clearResults (setItems (<[itemIndex := item ++ [[Num 0]]]> (items st)) st)
  end.

Definition removeEvaluationElement (itemIndex elementIndex : nat)
    (st : AppState) : AppState :=
  match items st !! itemIndex with
  | None => st
  | Some item =>
      if (length item <=? 1)%nat then st
      else
        clearResults
          (setItems (<[itemIndex := delete elementIndex item]> (items st)) st)
  end.

(** The value [addNumber] appends: the next term of the arithmetic
    progression of the last two numbers when both are valid, else 0. *)
Definition addNumber_newValue (currentNumbers : list number) : number :=
  if (2 <=? length currentNumbers)%nat then
    let last := Js.index currentNumbers (length currentNumbers - 1) in
    let secondLast := Js.index currentNumbers (length currentNumbers - 2) in
    if Js.gtb last (Num 0) && Js.gtb secondLast (Num 0)
       && negb (Js.isNaN last) && negb (Js.isNaN secondLast)
    then Js.add last (Js.sub last secondLast)
    else Num 0
  else Num 0.

Definition addNumber (itemIndex elementIndex : nat) (st : AppState) : AppState :=
  match items st !! itemIndex with
  | None => st
  | Some item =>
      match item !! elementIndex with
      | None => st
      | Some currentNumbers =>
          clearResults
            (setItems
               (<[itemIndex :=
                    <[elementIndex :=
                        currentNumbers ++ [addNumber_newValue currentNumbers]]>
                      item]>
                  (items st))
               st)
      end
  end.

Definition removeNumber (itemIndex elementIndex numIndex : nat)
    (st : AppState) : AppState :=
  match items st !! itemIndex with
  | None => st
  | Some item =>
      match item !! elementIndex with
      | None => st
      | Some numbers =>
          if (length numbers <=? 1)%nat then st
          else
            clearResults
              (setItems
                 (<[itemIndex :=
                      <[elementIndex := delete numIndex numbers]> item]>
                    (items st))
                 st)
      end
  end.

(** The structural edits the editing controls can issue. *)
Inductive edit : Type :=
  | AddItem
  | RemoveItem (itemIndex : nat)
  | AddEvaluationElement (itemIndex : nat)
  | RemoveEvaluationElement (itemIndex elementIndex : nat)
  | AddNumber (itemIndex elementIndex : nat)
  | RemoveNumber (itemIndex elementIndex numIndex : nat).

Definition apply_edit (e : edit) (st : AppState) : AppState :=
  match e with
  | AddItem => addItem st
  | RemoveItem i => removeItem i st
  | AddEvaluationElement i => addEvaluationElement i st
  | RemoveEvaluationElement i j => removeEvaluationElement i j st
  | AddNumber i j => addNumber i j st
  | RemoveNumber i j k => removeNumber i j k st
  end.

(** ** Notions used in the statements *)

(** The sum of a sequence of numbers. *)
Definition total (l : list number) : number := foldr Js.add (Num 0) l.

Definition is_int (a : number) : Prop := a ≠ NaN.

Definition positive (a : number) : Prop :=
  match a with
  | Num z => (0 < z)%Z
  | NaN => False
  end.

(** [choice] picks one value from each group, in order. *)
Definition picks (choice : list number) (groups : list (list number)) : Prop :=
  Forall2 (λ v group, v ∈ group) choice groups.

(** [a] is an integer strictly above the integer [b]. *)
Definition descending (a b : number) : Prop :=
  match a, b with
  | Num x, Num y => (y < x)%Z
  | _, _ => False
  end.

(** [a] is an integer at least the integer [b]: the order that the
    comparator [(a, b) => b - a] sorts integers by. *)
Definition not_below (a b : number) : Prop :=
  match a, b with
  | Num x, Num y => (y ≤ x)%Z
  | _, _ => False
  end.


(** A standard deviation is at most another one. *)
Definition stddev_le (a b : stddev) : Prop :=
  match a, b with
  | Sqrt (Frac x), Sqrt (Frac y) => (x <= y)%Q
  | _, _ => False
  end.

(** Two candidates have the same standard deviation. *)
Definition same_stdDev (a b : list number) : bool :=
  match calculateStdDev a, calculateStdDev b with
  | Sqrt (Frac x), Sqrt (Frac y) => Qeq_bool x y
  | _, _ => false
  end.

(** [sorted] is [candidates] sorted ascending by standard deviation, ties
    keeping their original relative order: it is a rearrangement of
    [candidates], its standard deviations never decrease, and the candidates
    of any one standard deviation appear in it in the order they have in
    [candidates]. *)
Definition sorted_by_stdDev (candidates sorted : list (list number)) : Prop :=
  sorted ≡ₚ candidates
  ∧ StronglySorted
      (λ a b, stddev_le (calculateStdDev a) (calculateStdDev b)) sorted
  ∧ ∀ c, filter (λ a, same_stdDev a c = true) sorted
         = filter (λ a, same_stdDev a c = true) candidates.

(** The invariant of a student record: with a total score, the item scores
    sum to it and the element scores of each item sum to the score of that
    item; without one, no score is assigned. *)
Definition student_ok (s : Student) : Prop :=
  match totalScore s with
  | Some t =>
      total (itemScores s) = t
      ∧ Forall2 (λ scores v, total scores = v) (elementScores s) (itemScores s)
  | None => itemScores s = [] ∧ elementScores s = []
  end.

(** The Results that [calculateCombinations] computes from a hierarchy. *)
Definition results_of (its : list Item) : Results :=
  mkResults (map calculateCartesianSum its)
    (calculateCartesianSum (map calculateCartesianSum its)).

(** [results], when there are any, were computed from the current [items],
    and these pass [validate]. *)
Definition results_current (st : AppState) : Prop :=
  match results st with
  | None => True
  | Some r => validate (items st) = None ∧ r = results_of (items st)
  end.

(** The operations on student records that the controls can issue. *)
Inductive student_operation : Type :=
  | AddStudent
  | RemoveStudent (target : nat)
  | UpdateStudentName (target : nat) (new_name : string)
  | UpdateStudentTotalScore (target : nat) (score : option number)
  | CalculateCombinations.

Definition apply_student_operation (op : student_operation) (st : AppState)
    (g : Js.rng) : AppState * Js.rng :=
  match op with
  | AddStudent => (addStudent st, g)
  | RemoveStudent target => (removeStudent target st, g)
  | UpdateStudentName target new_name => (updateStudentName target new_name st, g)
  | UpdateStudentTotalScore target score => updateStudentTotalScore target score st g
  | CalculateCombinations => (calculateCombinations st, g)
  end.

(** A value that [validate] rejects: at most 0, or not a number. *)
Definition invalid (num : number) : Prop :=
  match num with
  | Num z => (z ≤ 0)%Z
  | NaN => True
  end.

(** [items[i][j][k]], when it exists. *)
Definition value_at (its : list Item) (i j k : nat) : option number :=
  item ← its !! i; element ← item !! j; element !! k.

(** The position [(i', j', k')] is visited before [(i, j, k)] by the loops of
    [validate]. *)
Definition visited_before (i' j' k' i j k : nat) : Prop :=
  i' < i ∨ (i' = i ∧ (j' < j ∨ (j' = j ∧ k' < k))).

(** A student record with no assigned item or element score. *)
Definition scores_cleared (s : Student) : Prop :=
  itemScores s = [] ∧ elementScores s = [].

(** What the lifecycle rule asks of an edit: Results are gone, every record
    has lost its assigned scores, and the total scores are as before. *)
Definition edit_clears_assignments (e : edit) (st : AppState) : Prop :=
  results (apply_edit e st) = None
  ∧ Forall scores_cleared (students (apply_edit e st))
  ∧ map totalScore (students (apply_edit e st)) = map totalScore (students st).

(** A state after [calculateCombinations] on one item with one element
    [[3]], in which student 1 has been given the total 3. *)
Definition assigned_state : AppState :=
  mkAppState [[[Num 3]]] (Some (results_of [[[Num 3]]])) None
    [mkStudent 1 "학생 1" (Some (Num 3)) [Num 3] [[Num 3]]] 2
    (Some [[[Num 3]]]).

(** ** CSV export *)

(** [String(n)] for a number: the decimal digits of an integer, with its
    sign. *)
Definition number_toString (n : number) : string :=
  match n with
  | Num z => pretty z
  | NaN => "NaN"
  end.

(** An entry of a row of [exportToCSV], of type [string | number]. *)
Inductive cell : Type :=
  | Text (s : string)
  | Number (n : number).

(** What [join] makes of an entry. *)
Definition cell_toString (c : cell) : string :=
  match c with
  | Text s => s
  | Number n => number_toString n
  end.

(** [score ?? ''] *)
Definition or_empty (score : option number) : cell :=
  match score with
  | Some n => Number n
  | None => Text ""
  end.

(** The inner [forEach] that pushes the header of every element of item
    [itemIndex], from element index [elemIndex] on. *)
Fixpoint csv_headers_elements (itemIndex elemIndex : nat) (item : Item)
    (headers : list string) : list string :=
  match item with
  | [] => headers
  | _ :: item' =>
      csv_headers_elements itemIndex (S elemIndex) item'
        (headers ++
           ["항목" +:+ pretty (itemIndex + 1) +:+ "-요소" +:+ pretty (elemIndex + 1)])
  end.

(** The outer [forEach] over the items, from item index [itemIndex] on. *)
Fixpoint csv_headers_items (itemIndex : nat) (its : list Item)
    (headers : list string) : list string :=
  match its with
  | [] => headers
  | item :: its' =>
      csv_headers_items (S itemIndex) its'
        (csv_headers_elements itemIndex 0 item headers
           ++ ["항목" +:+ pretty (itemIndex + 1) +:+ " 총합"])
  end.

Definition csv_headers (its : list Item) : list string :=
  csv_headers_items 0 its ["학생 이름"] ++ ["전체 총합"].

(** The same two loops for the row of one student. *)
Fixpoint csv_row_elements (student : Student) (itemIndex elemIndex : nat)
    (item : Item) (row : list cell) : list cell :=
  match item with
  | [] => row
  | _ :: item' =>
      let score :=
        elementScores student !! itemIndex ≫= λ scores, scores !! elemIndex in
      csv_row_elements student itemIndex (S elemIndex) item'
        (row ++ [or_empty score])
  end.

Fixpoint csv_row_items (student : Student) (itemIndex : nat) (its : list Item)
    (row : list cell) : list cell :=
  match its with
  | [] => row
  | item :: its' =>
      csv_row_items student (S itemIndex) its'
        (csv_row_elements student itemIndex 0 item row
           ++ [or_empty (itemScores student !! itemIndex)])
  end.

Definition csv_row (its : list Item) (student : Student) : list cell :=
  csv_row_items student 0 its [Text (name student)]
    ++ [or_empty (totalScore student)].

(** The byte order mark and the line feed, as UTF-8. *)
Definition bom : string := String (Ascii.ascii_of_nat 239)
    (String (Ascii.ascii_of_nat 187) (String (Ascii.ascii_of_nat 191) "")).
Definition line_feed : string := String (Ascii.ascii_of_nat 10) "".

(** [exportToCSV]: the text of the file that is downloaded, or [None] when
    the handler returns at once.  The name of the file, which carries the
    date of the day, is not part of the state. *)
Definition exportToCSV (st : AppState) : option string :=
  if (length (students st) =? 0)%nat then None
  else
    let headers := csv_headers (items st) in
    let rows := map (csv_row (items st)) (students st) in
    let csvContent :=
      String.concat line_feed
        (String.concat "," headers
           :: map (λ row, String.concat "," (map cell_toString row)) rows) in
    Some (bom +:+ csvContent).

(** ** The [Autocomplete] component *)

(** [s.includes(sub)] *)
Fixpoint String_includes (s sub : string) : bool :=
  String.prefix sub s
  || match s with
     | EmptyString => false
     | String _ s' => String_includes s' sub
     end.

(** A number in a condition: 0 and NaN count as false. *)
Definition truthy (n : number) : bool :=
  match n with
  | Num z => negb (z =? 0)%Z
  | NaN => false
  end.

(** [value?.toString() ?? ''] *)
Definition value_text (value : option number) : string :=
  match value with
  | Some n => number_toString n
  | None => ""
  end.

Module Autocomplete.

(** The [useState] cells of the component. *)
Record state : Type := mkState {
  isOpen : bool;
  inputValue : string;
  filteredOptions : list number;
  highlightedIndex : Z;
}.

Inductive key : Type :=
  | ArrowDown
  | ArrowUp
  | Enter
  | Escape
  | OtherKey.

(** The call of [onChange] a handler makes: [None] when it makes none,
    [Some v] for [onChange(v)], where [v] is [None] for [null]. *)
Definition emitted : Type := option (option number).

(** The state of the first render. *)
Definition initial (options : list number) (value : option number) : state :=
  mkState false (value_text value) options (-1).

(** The effect with dependencies [[inputValue, options]]. *)
Definition filterEffect (options : list number) (st : state) : state :=
  mkState (isOpen st) (inputValue st)
    (if bool_decide (inputValue st = "") then options
     else filter (λ opt,
                    String_includes (number_toString opt) (inputValue st) = true)
                 options)
    (-1).

Definition handleSelect (option : number) (st : state) : state * emitted :=
  (mkState false (number_toString option) (filteredOptions st)
     (highlightedIndex st),
   Some (Some option)).

Definition handleClear (st : state) : state * emitted :=
  (mkState (isOpen st) "" (filteredOptions st) (highlightedIndex st),
   Some None).

Definition handleKeyDown (value : option number) (k : key) (st : state)
    : state * emitted :=
  if negb (isOpen st) then
    match k with
    | ArrowDown | Enter =>
        (mkState true (inputValue st) (filteredOptions st) (highlightedIndex st),
         None)
    | _ => (st, None)
    end
  else
    match k with
    | ArrowDown =>
        (mkState (isOpen st) (inputValue st) (filteredOptions st)
           (if (highlightedIndex st
                <? Z.of_nat (length (filteredOptions st)) - 1)%Z
            then (highlightedIndex st + 1)%Z
            else highlightedIndex st),
         None)
    | ArrowUp =>
        (mkState (isOpen st) (inputValue st) (filteredOptions st)
           (if (0 <? highlightedIndex st)%Z
            then (highlightedIndex st - 1)%Z
            else highlightedIndex st),
         None)
    | Enter =>
        if (0 <=? highlightedIndex st)%Z then
          match filteredOptions st !! Z.to_nat (highlightedIndex st) with
          | Some option =>
              if truthy option then handleSelect option st else (st, None)
          | None => (st, None)
          end
        else (st, None)
    | Escape =>
        (mkState false (value_text value) (filteredOptions st)
           (highlightedIndex st),
         None)
    | OtherKey => (st, None)
    end.

Section Handlers.
(** The global function [Number], which reads a number off a text. *)
Context (Number : string → number).

Definition handleInputChange (options : list number) (val : string)
    (st : state) : state * emitted :=
  let num := Number val in
  (mkState true val (filteredOptions st) (highlightedIndex st),
   if negb (Js.isNaN num) && bool_decide (num ∈ options)
   then Some (Some num)
   else None).

(** [handleClickOutside] for a click outside the component. *)
Definition handleClickOutside (options : list number) (value : option number)
    (st : state) : state * emitted :=
  (mkState false
     (if negb (bool_decide (inputValue st = ""))
         && negb (bool_decide (Number (inputValue st) ∈ options))
      then value_text value
      else inputValue st)
     (filteredOptions st) (highlightedIndex st),
   None).

(** What the user can do to the component.  [ClickOption] and [MouseEnter]
    carry the index of an entry of the list, which is shown only while the
    component is open. *)
Inductive event : Type :=
  | KeyDown (k : key)
  | InputChange (val : string)
  | Focus
  | ClickOutside
  | Clear
  | ClickOption (index : nat)
  | MouseEnter (index : nat).

Definition handle (options : list number) (value : option number)
    (ev : event) (st : state) : state * emitted :=
  match ev with
  | KeyDown k => handleKeyDown value k st
  | InputChange val => handleInputChange options val st
  | Focus =>
      (mkState true (inputValue st) (filteredOptions st) (highlightedIndex st),
       None)
  | ClickOutside => handleClickOutside options value st
  | Clear => handleClear st
  | ClickOption index =>
      if isOpen st then
        match filteredOptions st !! index with
        | Some option => handleSelect option st
        | None => (st, None)
        end
      else (st, None)
  | MouseEnter index =>
      if isOpen st && bool_decide (index < length (filteredOptions st)) then
        (mkState (isOpen st) (inputValue st) (filteredOptions st)
           (Z.of_nat index),
         None)
      else (st, None)
  end.

(** An event and the render after it: the handler runs, and the effect on
    [[inputValue, options]] runs when [inputValue] has changed. *)
Definition step (options : list number) (value : option number)
    (ev : event) (st : state) : state * emitted :=
  let '(st', out) := handle options value ev st in
  (if bool_decide (inputValue st' = inputValue st) then st'
   else filterEffect options st',
   out).

End Handlers.

(** The component after its first render, on which every effect runs. *)
Definition mounted (options : list number) (value : option number) : state :=
  filterEffect options (initial options value).

(** The render after the parent has changed the [value] it passes: the
    effect on [[value]] sets the text, and the effect on
    [[inputValue, options]] runs when the text has changed. *)
Definition valueChanged (options : list number) (value : option number)
    (st : state) : state :=
  let st' :=
    mkState (isOpen st) (value_text value) (filteredOptions st)
      (highlightedIndex st) in
  if bool_decide (inputValue st' = inputValue st) then st'
  else filterEffect options st'.

End Autocomplete.

(** An event on the [Autocomplete] of the row of the student at position
    [index] of the table, which is rendered only when there are Results:
    its options are [results.totalResult], its value is the total score of
    the student, and its [onChange] is [updateStudentTotalScore] on the
    identifier of the student.  When the total score of the row has changed,
    the component is rendered again with the new value. *)
Definition studentRowEvent (Number : string → number) (index : nat)
    (ev : Autocomplete.event) (ast : Autocomplete.state) (st : AppState)
    (g : Js.rng) : Autocomplete.state * (AppState * Js.rng) :=
  match results st, students st !! index with
  | Some r, Some student =>
      let '(ast', out) :=
        Autocomplete.step Number (totalResult r) (totalScore student) ev ast in
      let '(st', g') :=
        match out with
        | Some score => updateStudentTotalScore (id student) score st g
        | None => (st, g)
        end in
      (match students st' !! index with
       | Some student' =>
           if bool_decide (totalScore student' = totalScore student) then ast'
           else Autocomplete.valueChanged (totalResult r) (totalScore student')
                  ast'
       | None => ast'
       end,
       (st', g'))
  | _, _ => (ast, (st, g))
  end.

(** ** Runs of the application *)

(** Any handler of [App] that changes the state. *)
Inductive action : Type :=
  | EditAction (e : edit)
  | StudentAction (op : student_operation)
  | ResetAll.

Definition apply_action (a : action) (st : AppState) (g : Js.rng)
    : AppState * Js.rng :=
  match a with
  | EditAction e => (apply_edit e st, g)
  | StudentAction op => apply_student_operation op st g
  | ResetAll => (resetAll st, g)
  end.

(** The actions in order, each on the state the one before has left. *)
Definition run (actions : list action) (st : AppState) (g : Js.rng)
    : AppState * Js.rng :=
  foldl (λ sg a, apply_action a sg.1 sg.2) (st, g) actions.

(** ** More notions used in the statements *)

(** All the choices of one value per group, in the order of the nested
    loops over the groups. *)
Fixpoint choices (groups : list (list number)) : list (list number) :=
  match groups with
  | [] => [[]]
  | group :: groups' =>
      flat_map (λ v, map (λ choice, v :: choice) (choices groups')) group
  end.

(** No level of the hierarchy is empty. *)
Definition hierarchy_shape_ok (its : list Item) : Prop :=
  its ≠ []
  ∧ Forall (λ item, item ≠ [] ∧ Forall (λ element : EvaluationElement,
                                           element ≠ []) item) its.

(** The identifiers of the students are distinct and below the next one to
    be given out. *)
Definition ids_fresh (st : AppState) : Prop :=
  NoDup (map id (students st))
  ∧ Forall (λ s, id s < nextStudentId st) (students st).

(** What holds of every state the application reaches. *)
Definition app_invariant (st : AppState) : Prop :=
  results_current st
  ∧ Forall student_ok (students st)
  ∧ ids_fresh st
  ∧ hierarchy_shape_ok (items st).

(** The invariant of the [Autocomplete] state: the list shown is the one the
    text in the input selects, and the highlight is off or on an entry of
    that list. *)
Definition autocomplete_ok (options : list number) (st : Autocomplete.state)
    : Prop :=
  Autocomplete.filteredOptions st
  = Autocomplete.filteredOptions (Autocomplete.filterEffect options st)
  ∧ (Autocomplete.highlightedIndex st = (-1)%Z
     ∨ (0 ≤ Autocomplete.highlightedIndex st
        < Z.of_nat (length (Autocomplete.filteredOptions st)))%Z).

(** The edits that remove a part of the hierarchy. *)
Definition removal (e : edit) : Prop :=
  match e with
  | RemoveItem _ | RemoveEvaluationElement _ _ | RemoveNumber _ _ _ => True
  | _ => False
  end.

(** * Properties *)

(** ** Arithmetic of [number] *)

Lemma add_comm a b : Js.add a b = Js.add b a.
Proof. destruct a, b; simpl; f_equal; lia. Qed.

Lemma add_assoc a b c : Js.add a (Js.add b c) = Js.add (Js.add a b) c.
Proof. destruct a, b, c; simpl; f_equal; lia. Qed.

Lemma add_0_r a : Js.add a (Num 0) = a.
Proof. destruct a; simpl; f_equal; lia. Qed.

Lemma add_0_l a : Js.add (Num 0) a = a.
Proof. by destruct a. Qed.

Lemma add_is_int a b : is_int a → is_int b → is_int (Js.add a b).
Proof. by destruct a, b. Qed.

Lemma is_int_Num a : is_int a ↔ ∃ z, a = Num z.
Proof.
  unfold is_int. destruct a as [z|]; split; try done.
  - by exists z.
  - by intros [z ?].
Qed.

Lemma total_cons a l : total (a :: l) = Js.add a (total l).
Proof. done. Qed.

Lemma total_is_int l : Forall is_int l → is_int (total l).
Proof. induction 1; [done|]. rewrite total_cons. by apply add_is_int. Qed.

Lemma picks_is_int choice groups :
  Forall (Forall is_int) groups → picks choice groups → Forall is_int choice.
Proof.
  intros Hg Hp. revert Hg. induction Hp as [|v g choice groups Hv _ IH]; intros Hg.
  - constructor.
  - apply Forall_cons in Hg as [Hg1 Hg2]. constructor; [|by apply IH].
    by eapply Forall_forall in Hg1.
Qed.

(** ** [Array.prototype.sort] *)

Section ArraySortFacts.
Context {A : Type} (comparefn : A → A → comparison).

Lemma sort_insert_Permutation x l : Js.sort_insert comparefn x l ≡ₚ x :: l.
Proof.
  induction l as [|y l IH]; simpl; [done|].
  destruct (comparefn x y); [done..|].
  rewrite IH. apply Permutation_swap.
Qed.

Lemma Array_sort_Permutation l : Js.Array_sort comparefn l ≡ₚ l.
Proof.
  induction l as [|x l IH]; simpl; [done|].
  by rewrite sort_insert_Permutation, IH.
Qed.

Lemma Array_sort_length l : length (Js.Array_sort comparefn l) = length l.
Proof. by rewrite Array_sort_Permutation. Qed.

(** The order [R] that a comparator consistent on the elements satisfying
    [P] sorts by. *)
Context (R : relation A) (P : A → Prop).
Hypothesis R_trans : ∀ x y z, P x → P y → P z → R x y → R y z → R x z.
Hypothesis cmp_le : ∀ x y, P x → P y → comparefn x y ≠ Gt → R x y.
Hypothesis cmp_gt : ∀ x y, P x → P y → comparefn x y = Gt → R y x.

Lemma sort_insert_sorted x l :
  P x → Forall P l → StronglySorted R l →
  StronglySorted R (Js.sort_insert comparefn x l).
Proof.
  intros Hx HP Hs. induction l as [|y l IH]; simpl.
  - repeat constructor.
  - apply Forall_cons in HP as [Hy HP].
    apply StronglySorted_cons in Hs as [Hyl Hs].
    destruct (comparefn x y) eqn:Hc.
    + constructor; [by constructor|].
      assert (R x y) by (apply cmp_le; [done..|by rewrite Hc]).
      constructor; [done|].
      rewrite Forall_forall in Hyl, HP |- *. intros z Hz.
      apply (R_trans x y z); auto.
    + constructor; [by constructor|].
      assert (R x y) by (apply cmp_le; [done..|by rewrite Hc]).
      constructor; [done|].
      rewrite Forall_forall in Hyl, HP |- *. intros z Hz.
      apply (R_trans x y z); auto.
    + constructor; [by apply IH|].
      rewrite sort_insert_Permutation. constructor; [|done].
      by apply cmp_gt.
Qed.

Lemma Array_sort_sorted l :
  Forall P l → StronglySorted R (Js.Array_sort comparefn l).
Proof.
  induction 1 as [|x l Hx HP IH]; simpl; [constructor|].
  apply sort_insert_sorted; [done| |done].
  by rewrite Array_sort_Permutation.
Qed.

End ArraySortFacts.

(** ** [Set] *)

Lemma Set_add_elem_of s x y : y ∈ Js.Set_add s x ↔ y ∈ s ∨ y = x.
Proof.
  unfold Js.Set_add. case_bool_decide as Hx.
  - split; [by left|]. intros [?| ->]; done.
  - rewrite elem_of_app, list_elem_of_singleton. done.
Qed.

Lemma Set_add_NoDup s x : NoDup s → NoDup (Js.Set_add s x).
Proof.
  intros Hs. unfold Js.Set_add. case_bool_decide as Hx; [done|].
  apply NoDup_app. split_and!; [done| |apply NoDup_singleton].
  intros y Hy ->%list_elem_of_singleton. done.
Qed.

Lemma foldl_Set_add_elem_of l s y :
  y ∈ foldl Js.Set_add s l ↔ y ∈ s ∨ y ∈ l.
Proof.
  revert s. induction l as [|x l IH]; intros s; simpl.
  - rewrite elem_of_nil. tauto.
  - rewrite IH, Set_add_elem_of, elem_of_cons. tauto.
Qed.

Lemma foldl_Set_add_NoDup l s : NoDup s → NoDup (foldl Js.Set_add s l).
Proof.
  revert s. induction l as [|x l IH]; intros s Hs; simpl; [done|].
  by apply IH, Set_add_NoDup.
Qed.

Lemma new_Set_elem_of arr y : y ∈ Js.new_Set arr ↔ y ∈ arr.
Proof.
  unfold Js.new_Set. rewrite foldl_Set_add_elem_of, elem_of_nil. tauto.
Qed.

Lemma new_Set_NoDup arr : NoDup (Js.new_Set arr).
Proof. apply foldl_Set_add_NoDup, NoDup_nil_2. Qed.

(** ** Sum generator *)

Lemma sort_descending l :
  Forall is_int l →
  StronglySorted not_below (Js.Array_sort (λ a b, Js.sign (Js.sub b a)) l).
Proof.
  apply Array_sort_sorted.
  - intros [x|] [y|] [z|]; simpl; try done. lia.
  - intros [x|] [y|]; simpl; try done. intros _ _ Hc.
    destruct (Z.compare_spec (y - x) 0); [lia..|done].
  - intros [x|] [y|]; simpl; try done. intros _ _ Hc.
    apply Z.compare_gt_iff in Hc. lia.
Qed.

Lemma StronglySorted_strict l :
  StronglySorted not_below l → NoDup l → StronglySorted descending l.
Proof.
  induction 1 as [|x l Hs IH Hx]; intros Hnd; [constructor|].
  apply NoDup_cons in Hnd as [Hxl Hnd]. constructor; [by apply IH|].
  rewrite Forall_forall in Hx |- *. intros y Hy.
  specialize (Hx y Hy). destruct x as [x|], y as [y|]; simpl in *; try done.
  assert (x ≠ y) by (by intros ->). lia.
Qed.

(** The running [sums] after the loop over [others]. *)
Lemma cartesian_fold_elem_of others : ∀ first s,
  s ∈ foldl (λ sums set_i,
               flat_map (λ sum, map (λ num, Js.add sum num) set_i) sums)
            first others
  ↔ ∃ c0 choice, c0 ∈ first ∧ picks choice others ∧ s = Js.add c0 (total choice).
Proof.
  induction others as [|set_i others IH]; intros first s; simpl.
  - split.
    + intros Hs. exists s, []. split_and!; [done|constructor|].
      symmetry. apply add_0_r.
    + intros (c0 & choice & Hc0 & Hp & ->). apply Forall2_nil_inv_r in Hp as ->.
      by rewrite add_0_r.
  - rewrite IH. split.
    + intros (c & choice & Hc & Hp & ->).
      apply list_elem_of_In, in_flat_map in Hc as (sum & Hsum & Hc).
      apply in_map_iff in Hc as (num & <- & Hnum).
      exists sum, (num :: choice). split_and!.
      * by apply list_elem_of_In.
      * constructor; [by apply list_elem_of_In|done].
      * by rewrite total_cons, add_assoc.
    + intros (c0 & choice & Hc0 & Hp & ->).
      apply Forall2_cons_inv_r in Hp as (num & choice' & Hnum & Hp & ->).
      exists (Js.add c0 num), choice'. split_and!; [|done|].
      * apply list_elem_of_In, in_flat_map. exists c0.
        split; [by apply list_elem_of_In|].
        apply in_map_iff. exists num. split; [done|by apply list_elem_of_In].
      * by rewrite total_cons, add_assoc.
Qed.

Lemma picks_total_cons s first others :
  (∃ c0 choice, c0 ∈ first ∧ picks choice others ∧ s = Js.add c0 (total choice))
  ↔ ∃ choice, picks choice (first :: others) ∧ total choice = s.
Proof.
  split.
  - intros (c0 & choice & Hc0 & Hp & ->). exists (c0 :: choice).
    split; [by constructor|done].
  - intros (choice & Hp & <-).
    apply Forall2_cons_inv_r in Hp as (c0 & choice' & Hc0 & Hp & ->).
    by exists c0, choice'.
Qed.

Lemma calculateCartesianSum_elem_of sets s :
  sets ≠ [] →
  s ∈ calculateCartesianSum sets ↔ ∃ choice, picks choice sets ∧ total choice = s.
Proof.
  destruct sets as [|first others]; [done|]. intros _.
  unfold calculateCartesianSum.
  rewrite Array_sort_Permutation, new_Set_elem_of, cartesian_fold_elem_of.
  apply picks_total_cons.
Qed.

Lemma calculateCartesianSum_NoDup sets : NoDup (calculateCartesianSum sets).
Proof.
  destruct sets as [|first others]; [apply NoDup_nil_2|].
  unfold calculateCartesianSum.
  rewrite Array_sort_Permutation. apply new_Set_NoDup.
Qed.

Lemma calculateCartesianSum_is_int sets :
  Forall (Forall is_int) sets → Forall is_int (calculateCartesianSum sets).
Proof.
  intros Hint. destruct sets as [|first others]; [constructor|].
  apply Forall_forall. intros s Hs.
  apply calculateCartesianSum_elem_of in Hs as (choice & Hp & <-); [|done].
  apply total_is_int. by eapply picks_is_int.
Qed.

Lemma calculateCartesianSum_sorted sets :
  Forall (Forall is_int) sets →
  StronglySorted descending (calculateCartesianSum sets).
Proof.
  intros Hint. apply StronglySorted_strict; [|apply calculateCartesianSum_NoDup].
  pose proof (calculateCartesianSum_is_int sets Hint) as Hout.
  destruct sets as [|first others]; [constructor|].
  unfold calculateCartesianSum in *.
  apply sort_descending.
  rewrite Array_sort_Permutation in Hout. done.
Qed.



(** ** Decomposition search *)

Lemma foldl_accumulate {A B} (F : list B → A → list B) (Q : A → B → Prop)
    (l : list A) :
  (∀ x, x ∈ l → ∀ acc c, c ∈ F acc x ↔ c ∈ acc ∨ Q x c) →
  ∀ acc c, c ∈ foldl F acc l ↔ c ∈ acc ∨ ∃ x, x ∈ l ∧ Q x c.
Proof.
  induction l as [|x l IH]; intros HF acc c; simpl.
  - split; [by left|]. intros [?|(x & Hx & _)]; [done|]. by apply elem_of_nil in Hx.
  - rewrite IH by (intros y Hy; apply HF; by right).
    rewrite HF by left. split.
    + intros [[?|?]|(y & Hy & ?)]; [by left|right..].
      * exists x. split; [left|done].
      * exists y. split; [by right|done].
    + intros [?|(y & Hy & ?)]; [by left; left|].
      apply elem_of_cons in Hy as [->|Hy]; [by left; right|].
      right. by exists y.
Qed.

Lemma positive_Num a : positive a ↔ ∃ z, a = Num z ∧ (0 < z)%Z.
Proof.
  destruct a as [z|]; simpl; split; try done.
  - intros ?. by exists z.
  - by intros (? & [= <-] & ?).
  - by intros (? & ? & _).
Qed.

(** A choice among positive integers sums to a non-negative integer. *)
Lemma picks_total_nonneg choice groups :
  Forall (Forall positive) groups → picks choice groups →
  ∃ z, total choice = Num z ∧ (0 ≤ z)%Z.
Proof.
  intros Hg Hp. revert Hg.
  induction Hp as [|v g choice groups Hv _ IH]; intros Hg.
  - by exists 0%Z.
  - apply Forall_cons in Hg as [Hg1 Hg2].
    destruct (IH Hg2) as (z & Hz & ?).
    eapply Forall_forall in Hg1; [|done].
    apply positive_Num in Hg1 as (x & -> & ?).
    exists (x + z)%Z. rewrite total_cons, Hz. split; [done|lia].
Qed.

Lemma findItemCombinations_backtrack_elem_of (t : Z) rest :
  Forall (Forall positive) rest →
  ∀ (s : Z) current combinations c,
    c ∈ findItemCombinations_backtrack (Num t) rest (Num s) current combinations
    ↔ c ∈ combinations
      ∨ ∃ choice, c = current ++ choice ∧ picks choice rest
                  ∧ Js.add (Num s) (total choice) = Num t.
Proof.
  induction rest as [|scores rest IH]; intros Hpos s current combinations c.
  - simpl. destruct (Z.eqb_spec s t) as [->|Hne].
    + rewrite elem_of_app, list_elem_of_singleton. split.
      * intros [?| ->]; [by left|right]. exists []. rewrite app_nil_r.
        split_and!; [done|constructor|]. simpl. f_equal. lia.
      * intros [?|(choice & -> & Hp & _)]; [by left|right].
        apply Forall2_nil_inv_r in Hp as ->. by rewrite app_nil_r.
    + split; [by left|]. intros [?|(choice & -> & Hp & Hsum)]; [done|].
      apply Forall2_nil_inv_r in Hp as ->. simpl in Hsum.
      injection Hsum as Hsum. lia.
  - apply Forall_cons in Hpos as [Hscores Hpos]. specialize (IH Hpos).
    cbn [findItemCombinations_backtrack].
    rewrite (foldl_accumulate _
      (λ score c,
         ∃ choice, c = (current ++ [score]) ++ choice ∧ picks choice rest
                   ∧ Js.add (Js.add (Num s) score) (total choice) = Num t)).
    + split; (intros [?|Hc]; [by left|right]).
      * destruct Hc as (score & Hscore & choice & -> & Hp & Hsum).
        exists (score :: choice). split_and!; [|by constructor|].
        { by rewrite <- (assoc_L (++)). }
        by rewrite total_cons, add_assoc.
      * destruct Hc as (choice & -> & Hp & Hsum).
        apply Forall2_cons_inv_r in Hp as (score & choice' & Hscore & Hp & ->).
        exists score. split; [done|]. exists choice'. split_and!; [|done|].
        { by rewrite <- (assoc_L (++)). }
        by rewrite <- add_assoc, <- total_cons.
    + intros score Hscore acc c'.
      eapply Forall_forall in Hscores; [|done].
      apply positive_Num in Hscores as (v & -> & Hv).
      change (Js.add (Num s) (Num v)) with (Num (s + v)).
      unfold Js.leb. destruct (Z.leb_spec (s + v) t) as [Hle|Hgt].
      * apply IH.
      * split; [by left|]. intros [?|(choice & _ & Hp & Hsum)]; [done|].
        destruct (picks_total_nonneg choice rest Hpos Hp) as (z & Hz & ?).
        rewrite Hz in Hsum. injection Hsum as Hsum. lia.
Qed.

Lemma backtrack_same targetSum rest :
  ∀ currentSum current combinations,
    findElementCombinations_backtrack targetSum rest currentSum current combinations
    = findItemCombinations_backtrack targetSum rest currentSum current combinations.
Proof.
  induction rest as [|scores rest IH]; intros currentSum current combinations.
  - done.
  - cbn [findElementCombinations_backtrack findItemCombinations_backtrack].
    revert combinations. induction scores as [|score scores IHs]; intros ?.
    + done.
    + cbn [foldl]. rewrite IH. apply IHs.
Qed.

Lemma findElementCombinations_same targetSum groups :
  findElementCombinations targetSum groups = findItemCombinations targetSum groups.
Proof. apply backtrack_same. Qed.

Lemma findItemCombinations_elem_of (t : Z) groups c :
  Forall (Forall positive) groups →
  c ∈ findItemCombinations (Num t) groups ↔ picks c groups ∧ total c = Num t.
Proof.
  intros Hpos. unfold findItemCombinations.
  rewrite findItemCombinations_backtrack_elem_of by done.
  rewrite elem_of_nil. split.
  - intros [[]|(choice & -> & Hp & Hsum)]. by rewrite add_0_l in Hsum.
  - intros [Hp Hsum]. right. exists c. by rewrite add_0_l.
Qed.



(** C10. The two decomposition searches are the same function: on every
    target and every sequence of groups, [findItemCombinations] and
    [findElementCombinations] return the same combinations in the same
    order. *)
Theorem find_combinations_equal (targetSum : number)
    (groups : list (list number)) :
  findItemCombinations targetSum groups = findElementCombinations targetSum groups.
Proof. symmetry. apply findElementCombinations_same. Qed.

(** ** Validation *)

Lemma invalid_test num :
  Js.leb num (Num 0) || Js.isNaN num = false ↔ positive num.
Proof.
  destruct num as [z|]; simpl; [|done].
  rewrite orb_false_r, Z.leb_gt. done.
Qed.

Lemma validate_numbers_None i j k nums :
  validate_numbers i j k nums = None ↔ Forall positive nums.
Proof.
  revert k. induction nums as [|num nums IH]; intros k; simpl.
  - split; [constructor|done].
  - rewrite Forall_cons, <- invalid_test.
    destruct (Js.leb num (Num 0) || Js.isNaN num).
    + split; [done|]. by intros [? _].
    + rewrite IH. tauto.
Qed.

Lemma validate_elements_None i j elements :
  validate_elements i j elements = None ↔ Forall (Forall positive) elements.
Proof.
  revert j. induction elements as [|element elements IH]; intros j; simpl.
  - split; [constructor|done].
  - rewrite Forall_cons, <- (validate_numbers_None i j 0).
    destruct (validate_numbers i j 0 element).
    + split; [done|]. by intros [? _].
    + rewrite IH. tauto.
Qed.

Lemma validate_items_None i its :
  validate_items i its = None ↔ Forall (Forall (Forall positive)) its.
Proof.
  revert i. induction its as [|item its IH]; intros i; simpl.
  - split; [constructor|done].
  - rewrite Forall_cons, <- (validate_elements_None i 0).
    destruct (validate_elements i 0 item).
    + split; [done|]. by intros [? _].
    + rewrite IH. tauto.
Qed.

Lemma validate_None its :
  validate its = None ↔ Forall (Forall (Forall positive)) its.
Proof. apply validate_items_None. Qed.

(** ** Hierarchy evaluator *)

Lemma picks_total_positive choice groups :
  groups ≠ [] → Forall (Forall positive) groups → picks choice groups →
  positive (total choice).
Proof.
  intros Hne Hg Hp. destruct Hp as [|v g choice groups Hv Hp]; [done|].
  apply Forall_cons in Hg as [Hg1 Hg2].
  destruct (picks_total_nonneg choice groups Hg2 Hp) as (z & Hz & ?).
  eapply Forall_forall in Hg1; [|done].
  apply positive_Num in Hg1 as (x & -> & ?).
  rewrite total_cons, Hz. simpl. lia.
Qed.

Lemma calculateCartesianSum_positive sets :
  Forall (Forall positive) sets → Forall positive (calculateCartesianSum sets).
Proof.
  intros Hpos. apply Forall_forall. intros s Hs.
  destruct (decide (sets = [])) as [->|Hne]; [by apply elem_of_nil in Hs|].
  apply calculateCartesianSum_elem_of in Hs as (choice & Hp & <-); [|done].
  by eapply picks_total_positive.
Qed.

Lemma itemResults_positive its :
  Forall (Forall (Forall positive)) its →
  Forall (Forall positive) (map calculateCartesianSum its).
Proof.
  intros Hpos. apply Forall_fmap. eapply Forall_impl; [done|].
  intros item. apply calculateCartesianSum_positive.
Qed.

(** A number that [calculateCartesianSum] generates from groups of positive
    integers is found again by the search over the same groups. *)
Lemma generated_sum_decomposes groups s :
  Forall (Forall positive) groups → s ∈ calculateCartesianSum groups →
  ∃ t choice, s = Num t ∧ choice ∈ findItemCombinations s groups.
Proof.
  intros Hpos Hs.
  destruct (decide (groups = [])) as [->|Hne]; [by apply elem_of_nil in Hs|].
  apply calculateCartesianSum_elem_of in Hs as (choice & Hp & <-); [|done].
  destruct (picks_total_nonneg choice groups Hpos Hp) as (t & Ht & _).
  exists t, choice. split; [done|]. rewrite Ht.
  apply findItemCombinations_elem_of; [done|]. by rewrite <- Ht.
Qed.

Lemma calculateCombinations_valid st :
  validate (items st) = None →
  results (calculateCombinations st)
  = Some (mkResults (map calculateCartesianSum (items st))
            (calculateCartesianSum (map calculateCartesianSum (items st)))).
Proof. intros Hv. unfold calculateCombinations. by rewrite Hv. Qed.

(** C3. Round trip.  When the hierarchy passes [validate] (all its values are
    positive integers), [calculateCombinations] produces Results such that
    for every [s] in [totalResult] the search
    [findItemCombinations s itemResults] is not empty and every combination
    it returns sums to [s]. *)
Theorem round_trip (st : AppState) :
  validate (items st) = None →
  ∃ r, results (calculateCombinations st) = Some r
       ∧ ∀ s, s ∈ totalResult r →
              findItemCombinations s (itemResults r) ≠ []
              ∧ ∀ d, d ∈ findItemCombinations s (itemResults r) → total d = s.
Proof.
  intros Hv. eexists. split; [by apply calculateCombinations_valid|].
  cbn [totalResult itemResults]. intros s Hs.
  apply validate_None, itemResults_positive in Hv.
  destruct (generated_sum_decomposes _ _ Hv Hs) as (t & choice & -> & Hc).
  split.
  - intros Hnil. rewrite Hnil in Hc. by apply elem_of_nil in Hc.
  - intros d Hd. by apply findItemCombinations_elem_of in Hd as [_ ?].
Qed.

Lemma round_trip_witness :
  let st := mkAppState [[[Num 1; Num 2]]; [[Num 1; Num 2]]] None None [] 1 None in
  validate (items st) = None
  ∧ ∃ r, results (calculateCombinations st) = Some r
         ∧ ∀ s, s ∈ totalResult r →
                findItemCombinations s (itemResults r) ≠ []
                ∧ ∀ d, d ∈ findItemCombinations s (itemResults r) → total d = s.
Proof.
  exact (conj eq_refl
           (round_trip
              (mkAppState [[[Num 1; Num 2]]; [[Num 1; Num 2]]] None None [] 1 None)
              eq_refl)).
Defined.

(** ** Balance selector *)

Section ArraySortStable.
Context {A : Type} (comparefn : A → A → comparison).
Context (p : A → Prop) `{!∀ x, Decision (p x)}.

Lemma sort_insert_filter x l :
  (p x → ∀ y, y ∈ l → p y → comparefn x y ≠ Gt) →
  filter p (Js.sort_insert comparefn x l) = filter p (x :: l).
Proof.
  induction l as [|y l IH]; intros Hx; simpl; [done|].
  destruct (comparefn x y) eqn:Hc; [done..|].
  rewrite filter_cons, IH, !(filter_cons _ x), (filter_cons _ y).
  - destruct (decide (p x)) as [Hpx|]; [|done].
    destruct (decide (p y)) as [Hpy|]; [|done].
    destruct (Hx Hpx y); [left|done..].
  - intros Hpx z Hz. apply Hx; [done|by right].
Qed.

Lemma Array_sort_stable l :
  (∀ x y, x ∈ l → y ∈ l → p x → p y → comparefn x y ≠ Gt) →
  filter p (Js.Array_sort comparefn l) = filter p l.
Proof.
  induction l as [|x l IH]; intros Hl; simpl; [done|].
  rewrite sort_insert_filter.
  - rewrite !(filter_cons _ x), IH; [done|].
    intros y z Hy Hz. apply Hl; by right.
  - intros Hpx y Hy. rewrite Array_sort_Permutation in Hy.
    apply Hl; [left|by right|done].
Qed.

End ArraySortStable.

Lemma Array_sort_fmap {A B} (f : A → B) (comparefn : B → B → comparison) l :
  Js.Array_sort comparefn (map f l)
  = map f (Js.Array_sort (λ a b, comparefn (f a) (f b)) l).
Proof.
  induction l as [|x l IH]; simpl; [done|]. rewrite IH.
  generalize (Js.Array_sort (λ a b, comparefn (f a) (f b)) l). intros k.
  induction k as [|y k IHk]; simpl; [done|].
  destruct (comparefn (f x) (f y)); simpl; by rewrite ?IHk.
Qed.

(** The candidates in the order [selectBalancedCombination] ranks them. *)
Lemma withStdDev_sorted combinations :
  map combo
    (Js.Array_sort (λ a b, stddev_sub_sign (stdDev a) (stdDev b))
       (map (λ combo, mkScored combo (calculateStdDev combo)) combinations))
  = Js.Array_sort
      (λ a b, stddev_sub_sign (calculateStdDev a) (calculateStdDev b))
      combinations.
Proof.
  rewrite (Array_sort_fmap (λ combo, mkScored combo (calculateStdDev combo))).
  rewrite <- list_fmap_compose. apply list_fmap_id.
Qed.

Lemma fraction_sum_int (l : list number) (q : Q) :
  Forall is_int l →
  ∃ q', foldl (λ a b, fraction_add a (fraction_of b)) (Frac q) l = Frac q'.
Proof.
  intros Hl. revert q. induction Hl as [|x l Hx _ IH]; intros q; simpl.
  - by exists q.
  - apply is_int_Num in Hx as [z ->]. apply IH.
Qed.

Lemma fraction_sum_Frac (l : list fraction) (q : Q) :
  Forall (λ x, ∃ y, x = Frac y) l →
  ∃ q', foldl fraction_add (Frac q) l = Frac q'.
Proof.
  intros Hl. revert q. induction Hl as [|x l Hx _ IH]; intros q; simpl.
  - by exists q.
  - destruct Hx as [y ->]. apply IH.
Qed.

(** On integers the standard deviation is a number. *)
Lemma calculateStdDev_int arr :
  Forall is_int arr → ∃ q, calculateStdDev arr = Sqrt (Frac q).
Proof.
  intros Hint. unfold calculateStdDev.
  destruct (length arr =? 0)%nat; [by eexists|].
  destruct (fraction_sum_int arr 0 Hint) as [m ->]. cbn [fraction_div].
  edestruct (fraction_sum_Frac
    (map (λ x, fraction_square
                 (fraction_sub (fraction_of x) (Frac (m / Js.of_nat (length arr)))))
         arr) 0) as [v ->]; [|by eexists].
  apply Forall_fmap. eapply Forall_impl; [done|].
  intros x [z ->]%is_int_Num. by eexists.
Qed.

Lemma Array_sort_by_stdDev combinations :
  Forall (Forall is_int) combinations →
  sorted_by_stdDev combinations
    (Js.Array_sort
       (λ a b, stddev_sub_sign (calculateStdDev a) (calculateStdDev b))
       combinations).
Proof.
  intros Hint. split_and!.
  - apply Array_sort_Permutation.
  - apply (Array_sort_sorted _ _ (Forall is_int)); [| | |done].
    + intros a b c [x ->]%calculateStdDev_int [y ->]%calculateStdDev_int
        [z ->]%calculateStdDev_int. apply Qle_trans.
    + intros a b [x ->]%calculateStdDev_int [y ->]%calculateStdDev_int.
      simpl. by rewrite Qle_alt.
    + intros a b [x ->]%calculateStdDev_int [y ->]%calculateStdDev_int.
      simpl. rewrite <- Qgt_alt. apply Qlt_le_weak.
  - intros c. apply Array_sort_stable. intros a b _ _ Ha Hb.
    unfold same_stdDev in Ha, Hb.
    destruct (calculateStdDev a) as [[x|]]; [|done].
    destruct (calculateStdDev b) as [[y|]]; [|done].
    destruct (calculateStdDev c) as [[z|]]; [|done].
    apply Qeq_bool_eq in Ha, Hb. simpl.
    assert (x == y)%Q as Hxy by (by rewrite Ha, Hb).
    apply Qeq_alt in Hxy. by rewrite Hxy.
Qed.

Lemma same_stdDev_refl c : Forall is_int c → same_stdDev c c = true.
Proof.
  intros [q Hq]%calculateStdDev_int. unfold same_stdDev. rewrite Hq.
  apply Qeq_bool_iff. reflexivity.
Qed.

Lemma stddev_le_antisym a b :
  stddev_le (calculateStdDev a) (calculateStdDev b) →
  stddev_le (calculateStdDev b) (calculateStdDev a) →
  same_stdDev b a = true.
Proof.
  unfold same_stdDev.
  destruct (calculateStdDev a) as [[x|]], (calculateStdDev b) as [[y|]];
    simpl; try done.
  intros Hxy Hyx. apply Qeq_bool_iff. by apply Qle_antisym.
Qed.

(** Two rankings that agree on the order inside every class of equal
    standard deviation are the same list. *)
Lemma stable_ranking_unique s1 : ∀ s2,
  Forall (Forall is_int) s1 → Forall (Forall is_int) s2 →
  StronglySorted (λ a b, stddev_le (calculateStdDev a) (calculateStdDev b)) s1 →
  StronglySorted (λ a b, stddev_le (calculateStdDev a) (calculateStdDev b)) s2 →
  (∀ c, filter (λ a, same_stdDev a c = true) s1
        = filter (λ a, same_stdDev a c = true) s2) →
  s1 = s2.
Proof.
  induction s1 as [|a s1 IH]; intros [|b s2] Hint1 Hint2 Hs1 Hs2 Hfilter.
  - done.
  - apply Forall_cons in Hint2 as [Hb _].
    specialize (Hfilter b). rewrite filter_cons in Hfilter.
    rewrite decide_True in Hfilter by (by apply same_stdDev_refl). done.
  - apply Forall_cons in Hint1 as [Ha _].
    specialize (Hfilter a). rewrite filter_cons in Hfilter.
    rewrite decide_True in Hfilter by (by apply same_stdDev_refl). done.
  - apply Forall_cons in Hint1 as [Ha Hint1].
    apply Forall_cons in Hint2 as [Hb Hint2].
    apply StronglySorted_cons in Hs1 as [Hale Hs1].
    apply StronglySorted_cons in Hs2 as [Hble Hs2].
    assert (stddev_le (calculateStdDev a) (calculateStdDev a)) as Haa.
    { destruct (calculateStdDev_int a Ha) as [q ->]. apply Qle_refl. }
    assert (stddev_le (calculateStdDev b) (calculateStdDev b)) as Hbb.
    { destruct (calculateStdDev_int b Hb) as [q ->]. apply Qle_refl. }
    assert (b ∈ a :: s1) as Hb1.
    { assert (b ∈ filter (λ x, same_stdDev x b = true) (a :: s1)) as Hin.
      { rewrite Hfilter. apply list_elem_of_filter.
        split; [by apply same_stdDev_refl|left]. }
      by apply list_elem_of_filter in Hin as [_ ?]. }
    assert (a ∈ b :: s2) as Ha2.
    { assert (a ∈ filter (λ x, same_stdDev x a = true) (b :: s2)) as Hin.
      { rewrite <- Hfilter. apply list_elem_of_filter.
        split; [by apply same_stdDev_refl|left]. }
      by apply list_elem_of_filter in Hin as [_ ?]. }
    assert (stddev_le (calculateStdDev a) (calculateStdDev b)) as Hab.
    { apply elem_of_cons in Hb1 as [->|Hb1]; [done|].
      by eapply Forall_forall in Hale. }
    assert (stddev_le (calculateStdDev b) (calculateStdDev a)) as Hba.
    { apply elem_of_cons in Ha2 as [->|Ha2]; [done|].
      by eapply Forall_forall in Hble. }
    assert (a = b) as <-.
    { pose proof (Hfilter a) as Hfa. rewrite !filter_cons in Hfa.
      rewrite decide_True in Hfa by (by apply same_stdDev_refl).
      rewrite decide_True in Hfa by (by apply stddev_le_antisym).
      by injection Hfa. }
    f_equal. apply IH; [done..|]. intros c.
    specialize (Hfilter c). rewrite !filter_cons in Hfilter.
    destruct (decide (same_stdDev a c = true)); [by injection Hfilter|done].
Qed.

(** The ranking that [sorted_by_stdDev] describes is unique. *)
Lemma sorted_by_stdDev_unique candidates s1 s2 :
  Forall (Forall is_int) candidates →
  sorted_by_stdDev candidates s1 → sorted_by_stdDev candidates s2 → s1 = s2.
Proof.
  intros Hint (Hp1 & Hs1 & Hf1) (Hp2 & Hs2 & Hf2).
  apply stable_ranking_unique; [by rewrite Hp1|by rewrite Hp2|done..|].
  intros c. by rewrite Hf1, Hf2.
Qed.

Lemma topCount_of_pos n : 1 ≤ topCount_of n.
Proof. unfold topCount_of. lia. Qed.

(** [Math.floor(Math.random() * n)] is an index below [n]. *)
Lemma randomIndex_in_range (d : Js.draw) (n : nat) :
  0 < n → Js.Math_floor (Js.draw_value d * Js.of_nat n) < n.
Proof.
  intros Hn. destruct d as [p g].
  unfold Js.Math_floor, Js.draw_value, Js.of_nat, Qmult, Qfloor, inject_Z.
  cbn [Js.numer Js.gap Qnum Qden]. rewrite Pos.mul_1_r.
  apply Nat2Z.inj_lt. rewrite Z2Nat.id.
  - apply Z.div_lt_upper_bound; [lia|]. nia.
  - apply Z.div_pos; lia.
Qed.

(** What [selectBalancedCombination] returns among two candidates or more:
    the candidate at some index [k] of the ranking, [k] below the size of
    the top fraction. *)
Lemma selectBalancedCombination_ranked c1 c2 combinations g :
  ∃ k, k < topCount_of (length (c1 :: c2 :: combinations))
       ∧ Js.Array_sort
           (λ a b, stddev_sub_sign (calculateStdDev a) (calculateStdDev b))
           (c1 :: c2 :: combinations) !! k
         = Some (selectBalancedCombination (c1 :: c2 :: combinations) g).1.
Proof.
  set (l := c1 :: c2 :: combinations).
  unfold selectBalancedCombination. fold l. cbv zeta.
  unfold Js.Math_random. cbn [fst].
  set (sorted := Js.Array_sort _ (map _ l)).
  set (top := take (topCount_of (length sorted)) sorted).
  assert (length sorted = length l) as Hlen.
  { unfold sorted. by rewrite Array_sort_length, length_map. }
  assert (0 < length top) as Htop.
  { unfold top. rewrite length_take, Hlen.
    pose proof (topCount_of_pos (length l)).
    assert (0 < length l) by (unfold l; simpl; lia). lia. }
  pose proof (randomIndex_in_range (g 0) (length top) Htop) as Hidx.
  set (k := Js.Math_floor _) in *.
  exists k. split.
  - unfold top in Hidx. rewrite length_take, Hlen in Hidx. lia.
  - rewrite <- withStdDev_sorted. fold sorted.
    assert (k < length (map combo top)) as Hk by (by rewrite length_map).
    destruct (nth_lookup_or_length (map combo top) k []) as [Hnth|?]; [|lia].
    unfold l. cbn [fst]. rewrite <- Hnth. unfold top at 1.
    rewrite fmap_take, lookup_take_lt; [done|].
    unfold top in Hidx. rewrite length_take in Hidx. lia.
Qed.

Lemma selectBalancedCombination_lookup combinations g :
  combinations ≠ [] →
  ∃ k, k < topCount_of (length combinations)
       ∧ Js.Array_sort
           (λ a b, stddev_sub_sign (calculateStdDev a) (calculateStdDev b))
           combinations !! k
         = Some (selectBalancedCombination combinations g).1.
Proof.
  intros Hne. destruct combinations as [|c1 [|c2 rest]]; [done| |].
  - exists 0. split; [apply topCount_of_pos|done].
  - apply selectBalancedCombination_ranked.
Qed.

Lemma selectBalancedCombination_elem_of combinations g :
  combinations ≠ [] →
  (selectBalancedCombination combinations g).1 ∈ combinations.
Proof.
  intros Hne.
  destruct (selectBalancedCombination_lookup combinations g Hne) as (k & _ & Hk).
  apply list_elem_of_lookup_2 in Hk. by rewrite Array_sort_Permutation in Hk.
Qed.

(** The size of the top fraction in integer arithmetic. *)
Lemma topCount_of_eq n : topCount_of n = Nat.max 1 ((3 * n + 9) / 10).
Proof.
  unfold topCount_of, Js.Math_ceil, Js.of_nat, Qceiling, Qfloor, Qopp, Qmult,
    inject_Z.
  cbn [Qnum Qden]. f_equal.
  change (Z.pos (1 * 10)) with 10%Z.
  apply Nat2Z.inj. rewrite Nat2Z.inj_div, Z2Nat.id.
  - rewrite Nat2Z.inj_add, Nat2Z.inj_mul. simpl Z.of_nat at 2 3.
    generalize (Z.of_nat n). intros m. Z.div_mod_to_equations. lia.
  - generalize (Nat2Z.is_nonneg n). generalize (Z.of_nat n). intros m Hm.
    Z.div_mod_to_equations. lia.
Qed.



(** ** Student records *)

Lemma findItemCombinations_backtrack_NaN rest :
  ∀ currentSum current combinations,
    findItemCombinations_backtrack NaN rest currentSum current combinations
    = combinations.
Proof.
  destruct rest as [|scores rest]; intros currentSum current combinations.
  - simpl. by destruct currentSum.
  - cbn [findItemCombinations_backtrack]. revert combinations.
    induction scores as [|score scores IH]; intros combinations; [done|].
    cbn [foldl].
    replace (Js.leb (Js.add currentSum score) NaN) with false; [apply IH|].
    by destruct (Js.add _ _).
Qed.

(** A search that finds something was given an integer target. *)
Lemma findItemCombinations_target targetSum groups :
  findItemCombinations targetSum groups ≠ [] → ∃ t, targetSum = Num t.
Proof.
  destruct targetSum as [t|]; [by exists t|]. intros [].
  apply findItemCombinations_backtrack_NaN.
Qed.

(** The loop over the items gives every item a decomposition of its score
    into element scores. *)
Lemma assignElementScores_sums selectedItemScores its :
  Forall (Forall (Forall positive)) its →
  ∀ i elementScores g before after,
    selectedItemScores = before ++ after →
    length before = i →
    picks after (map calculateCartesianSum its) →
    Forall2 (λ scores v, total scores = v) elementScores before →
    Forall2 (λ scores v, total scores = v)
      (assignElementScores selectedItemScores i its elementScores g).1
      selectedItemScores.
Proof.
  induction its as [|item its IH];
    intros Hpos i elementScores g before after -> Hlen Hp Hacc.
  - apply Forall2_nil_inv_r in Hp as ->. by rewrite app_nil_r.
  - apply Forall_cons in Hpos as [Hitem Hpos].
    apply Forall2_cons_inv_r in Hp as (v & after' & Hv & Hp & ->).
    cbn [assignElementScores].
    assert (Js.index (before ++ v :: after') i = v) as ->.
    { unfold Js.index. subst i. by rewrite list_lookup_middle. }
    rewrite findElementCombinations_same.
    destruct (generated_sum_decomposes item v Hitem Hv) as (t & choice & -> & Hc).
    assert (findItemCombinations (Num t) item ≠ []) as Hne.
    { intros Hnil. rewrite Hnil in Hc. by apply elem_of_nil in Hc. }
    pose proof (selectBalancedCombination_elem_of _ g Hne) as Hsel.
    destruct (selectBalancedCombination _ g) as [selectedElements g'].
    cbn [fst] in Hsel.
    apply findItemCombinations_elem_of in Hsel as [_ Hsum]; [|done].
    apply (IH Hpos _ _ _ (before ++ [Num t]) after').
    + by rewrite <- (assoc_L (++)).
    + rewrite length_app. simpl. lia.
    + done.
    + apply Forall2_app; [done|]. by constructor.
Qed.

Lemma Forall_student_ok_update target new (l : list Student) :
  (∀ s, student_ok (new s)) →
  Forall student_ok l →
  Forall student_ok (map (λ s, if (id s =? target)%nat then new s else s) l).
Proof.
  intros Hnew Hl. apply Forall_fmap. eapply Forall_impl; [done|].
  intros s Hs. simpl. by destruct (id s =? target)%nat.
Qed.

Lemma updateStudentTotalScore_ok target score st g :
  results_current st →
  Forall student_ok (students st) →
  Forall student_ok (students (updateStudentTotalScore target score st g).1).
Proof.
  intros Hcur Hok. unfold updateStudentTotalScore.
  destruct score as [score|]; [|by apply Forall_student_ok_update].
  unfold results_current in Hcur.
  destruct (results st) as [r|]; [|by apply Forall_student_ok_update].
  destruct Hcur as [Hv ->]. cbn [itemResults results_of].
  apply validate_None in Hv.
  destruct (findItemCombinations score (map calculateCartesianSum (items st)))
    as [|c0 cs] eqn:Hfind; [done|].
  cbn [length Nat.eqb].
  assert (findItemCombinations score (map calculateCartesianSum (items st)) ≠ [])
    as Hne by (by rewrite Hfind).
  destruct (findItemCombinations_target _ _ Hne) as [t ->].
  pose proof (selectBalancedCombination_elem_of _ g Hne) as Hsel.
  rewrite Hfind in Hsel.
  destruct (selectBalancedCombination (c0 :: cs) g) as [selectedItemScores g1].
  cbn [fst] in Hsel. rewrite <- Hfind in Hsel.
  apply findItemCombinations_elem_of in Hsel as [Hp Hsum];
    [|by apply itemResults_positive].
  assert (Forall2 (λ scores v, total scores = v) [] (@nil number)) as Hnil
    by constructor.
  pose proof (assignElementScores_sums selectedItemScores (items st) Hv
                0 [] g1 [] selectedItemScores eq_refl eq_refl Hp Hnil) as Hel.
  destruct (assignElementScores selectedItemScores 0 (items st) [] g1)
    as [elementScores g2].
  cbn [fst students setStudents]. apply Forall_student_ok_update; [|done].
  intros s. by split.
Qed.

Lemma updateStudentTotalScore_frame target score st g :
  items (updateStudentTotalScore target score st g).1 = items st
  ∧ results (updateStudentTotalScore target score st g).1 = results st.
Proof.
  unfold updateStudentTotalScore.
  destruct score as [score|]; [|done].
  destruct (results st) as [r|] eqn:Hr; [|done].
  destruct (length _ =? 0)%nat; [done|].
  destruct (selectBalancedCombination _ g) as [selected g1].
  by destruct (assignElementScores _ _ _ _ _).
Qed.

Lemma calculateCombinations_current st :
  results_current st → results_current (calculateCombinations st).
Proof.
  intros Hcur. unfold calculateCombinations.
  destruct (validate (items st)) eqn:Hv; [done|].
  unfold results_current. simpl. done.
Qed.

Lemma calculateCombinations_students_ok st :
  Forall student_ok (students st) →
  Forall student_ok (students (calculateCombinations st)).
Proof.
  intros Hok. unfold calculateCombinations.
  destruct (validate (items st)); [done|]. constructor.
Qed.

(** C4. Adding a student, assigning or unsetting a total score, and
    recomputing the results (as well as removing and renaming a student) keep
    the invariant of every student record, provided the Results present were
    computed from the current hierarchy of positive integers and the
    invariant held before; that proviso is kept as well. *)
Theorem student_operations_keep_invariant (op : student_operation)
    (st : AppState) (g : Js.rng) :
  results_current st →
  Forall student_ok (students st) →
  Forall student_ok (students (apply_student_operation op st g).1)
  ∧ results_current (apply_student_operation op st g).1.
Proof.
  intros Hcur Hok. destruct op as [|target|target new_name|target score|];
    cbn [apply_student_operation fst].
  - split; [|done]. cbn [addStudent students setStudents setNextStudentId].
    apply Forall_app. split; [done|]. repeat constructor.
  - split; [|done]. cbn [removeStudent students setStudents].
    rewrite Forall_forall in Hok |- *. intros s Hs.
    apply list_elem_of_filter in Hs as [_ Hs]. by apply Hok.
  - split; [|done]. cbn [updateStudentName students setStudents].
    apply Forall_fmap. eapply Forall_impl; [done|]. intros s Hs. simpl.
    by destruct (id s =? target)%nat.
  - split; [by apply updateStudentTotalScore_ok|].
    destruct (updateStudentTotalScore_frame target score st g) as [Hi Hr].
    unfold results_current. by rewrite Hi, Hr.
  - split; [by apply calculateCombinations_students_ok|].
    by apply calculateCombinations_current.
Qed.

Lemma student_operations_keep_invariant_witness :
  let op := UpdateStudentTotalScore 1 (Some (Num 3)) in
  let st := addStudent assigned_state in
  let g : Js.rng := λ _, Js.Draw 0 0 in
  (results_current st ∧ Forall student_ok (students st))
  ∧ Forall student_ok (students (apply_student_operation op st g).1)
  ∧ results_current (apply_student_operation op st g).1.
Proof.
  assert (H1 : results_current (addStudent assigned_state)) by (by split).
  assert (H2 : Forall student_ok (students (addStudent assigned_state)))
    by (repeat constructor).
  exact (conj (conj H1 H2)
           (student_operations_keep_invariant
              (UpdateStudentTotalScore 1 (Some (Num 3)))
              (addStudent assigned_state) (λ _, Js.Draw 0 0) H1 H2)).
Defined.

(** C6. When the search over [results.itemResults] finds no combination for
    the score, [updateStudentTotalScore] changes nothing: every student
    keeps [totalScore], [itemScores] and [elementScores], no other cell of
    the state changes, no error is set and no random number is drawn. *)
Theorem updateStudentTotalScore_no_decomposition (target : nat)
    (score : number) (st : AppState) (g : Js.rng) (r : Results) :
  results st = Some r →
  findItemCombinations score (itemResults r) = [] →
  updateStudentTotalScore target (Some score) st g = (st, g).
Proof.
  intros Hr Hfind. unfold updateStudentTotalScore. by rewrite Hr, Hfind.
Qed.

Lemma updateStudentTotalScore_no_decomposition_witness :
  let g : Js.rng := λ _, Js.Draw 0 0 in
  (results assigned_state = Some (results_of [[[Num 3]]])
   ∧ findItemCombinations (Num 5) (itemResults (results_of [[[Num 3]]])) = [])
  ∧ updateStudentTotalScore 1 (Some (Num 5)) assigned_state g
    = (assigned_state, g).
Proof.
  exact (conj (conj eq_refl eq_refl)
           (updateStudentTotalScore_no_decomposition 1 (Num 5) assigned_state
              (λ _, Js.Draw 0 0) (results_of [[[Num 3]]]) eq_refl eq_refl)).
Defined.

(** ** Validation reports the first invalid value *)

Lemma invalid_not_positive num : invalid num ↔ ¬ positive num.
Proof. destruct num as [z|]; simpl; [lia|tauto]. Qed.

Lemma invalid_test_true num :
  Js.leb num (Num 0) || Js.isNaN num = true ↔ invalid num.
Proof.
  rewrite invalid_not_positive, <- invalid_test.
  by destruct (Js.leb num (Num 0) || Js.isNaN num).
Qed.

Lemma validate_numbers_first i j k nums :
  ¬ Forall positive nums →
  ∃ n num,
    nums !! n = Some num ∧ invalid num
    ∧ (∀ n' num', n' < n → nums !! n' = Some num' → positive num')
    ∧ validate_numbers i j k nums
      = Some (invalid_message (i + 1) (j + 1) (k + n + 1)).
Proof.
  revert k. induction nums as [|num nums IH]; intros k Hnot.
  - destruct Hnot. constructor.
  - simpl. destruct (Js.leb num (Num 0) || Js.isNaN num) eqn:Htest.
    + exists 0, num. split_and!; [done|by apply invalid_test_true|lia|].
      f_equal. f_equal; lia.
    + apply invalid_test in Htest.
      destruct (IH (S k)) as (n & num' & Hn & Hinv & Hbefore & Hmsg).
      { intros Hall. apply Hnot. by constructor. }
      exists (S n), num'. split_and!; [done..| |].
      * intros [|n'] num'' Hlt Hlook.
        -- by injection Hlook as <-.
        -- apply (Hbefore n'); [lia|done].
      * rewrite Hmsg. f_equal. f_equal; lia.
Qed.

Lemma validate_elements_first i j elements :
  ¬ Forall (Forall positive) elements →
  ∃ m n num,
    (element ← elements !! m; element !! n) = Some num ∧ invalid num
    ∧ (∀ m' n' num', m' < m ∨ (m' = m ∧ n' < n) →
         (element ← elements !! m'; element !! n') = Some num' → positive num')
    ∧ validate_elements i j elements
      = Some (invalid_message (i + 1) (j + m + 1) (n + 1)).
Proof.
  revert j. induction elements as [|element elements IH]; intros j Hnot.
  - destruct Hnot. constructor.
  - simpl. destruct (validate_numbers i j 0 element) as [message|] eqn:Hnums.
    + destruct (validate_numbers_first i j 0 element)
        as (n & num & Hn & Hinv & Hbefore & Hmsg).
      { intros Hall. apply (validate_numbers_None i j 0) in Hall. congruence. }
      exists 0, n, num. split_and!; [done..| |].
      * intros m' n' num' [?|[-> Hlt]]; [lia|]. simpl. by apply Hbefore.
      * rewrite Hnums in Hmsg. rewrite Hmsg. f_equal. f_equal; lia.
    + apply validate_numbers_None in Hnums.
      destruct (IH (S j)) as (m & n & num & Hm & Hinv & Hbefore & Hmsg).
      { intros Hall. apply Hnot. by constructor. }
      exists (S m), n, num. split_and!; [done..| |].
      * intros [|m'] n' num' Hlt Hlook.
        -- simpl in Hlook. eapply Forall_forall; [done|].
           by eapply list_elem_of_lookup_2.
        -- apply (Hbefore m' n'); [lia|done].
      * rewrite Hmsg. f_equal. f_equal; lia.
Qed.

Lemma validate_items_first i its :
  ¬ Forall (Forall (Forall positive)) its →
  ∃ l m n num,
    value_at its l m n = Some num ∧ invalid num
    ∧ (∀ l' m' n' num', visited_before l' m' n' l m n →
         value_at its l' m' n' = Some num' → positive num')
    ∧ validate_items i its
      = Some (invalid_message (i + l + 1) (m + 1) (n + 1)).
Proof.
  revert i. induction its as [|item its IH]; intros i Hnot.
  - destruct Hnot. constructor.
  - simpl. destruct (validate_elements i 0 item) as [message|] eqn:Helems.
    + destruct (validate_elements_first i 0 item)
        as (m & n & num & Hm & Hinv & Hbefore & Hmsg).
      { intros Hall. apply (validate_elements_None i 0) in Hall. congruence. }
      exists 0, m, n, num. split_and!; [done..| |].
      * intros l' m' n' num' [?|[-> Hlt]]; [lia|]. unfold value_at. simpl.
        by apply Hbefore.
      * rewrite Helems in Hmsg. rewrite Hmsg. f_equal. f_equal; lia.
    + apply validate_elements_None in Helems.
      destruct (IH (S i)) as (l & m & n & num & Hl & Hinv & Hbefore & Hmsg).
      { intros Hall. apply Hnot. by constructor. }
      exists (S l), m, n, num. split_and!; [done..| |].
      * intros [|l'] m' n' num' Hlt Hlook.
        -- unfold value_at in Hlook.
           change (item !! m' ≫= (λ element : EvaluationElement, element !! n')
                   = Some num') in Hlook.
           destruct (item !! m') as [element|] eqn:Helement; [|done].
           simpl in Hlook.
           apply list_elem_of_lookup_2 in Helement, Hlook.
           eapply Forall_forall in Helems; [|done].
           by eapply Forall_forall in Helems.
        -- apply (Hbefore l' m' n'); [|done].
           destruct Hlt as [?|[? ?]]; [left; lia|right]. split; [lia|done].
      * rewrite Hmsg. f_equal. f_equal; lia.
Qed.

Lemma value_at_invalid its i j k num :
  value_at its i j k = Some num → invalid num →
  ¬ Forall (Forall (Forall positive)) its.
Proof.
  unfold value_at. intros Hlook Hinv Hall.
  destruct (its !! i) as [item|] eqn:Hitem; [|done]. simpl in Hlook.
  destruct (item !! j) as [element|] eqn:Helement; [|done]. simpl in Hlook.
  apply list_elem_of_lookup_2 in Hitem, Helement, Hlook.
  eapply Forall_forall in Hall; [|done].
  eapply Forall_forall in Hall; [|done].
  eapply Forall_forall in Hall; [|done].
  by apply invalid_not_positive in Hinv.
Qed.



(** The scenario of the specification: a 0 at item 2, element 1, position 3. *)
Example validate_scenario :
  validate [[[Num 1]]; [[Num 1; Num 2; Num 0]]] = Some (invalid_message 2 1 3).
Proof. reflexivity. Qed.

(** ** Editing the hierarchy and the student records *)

(** [assigned_state] is reached from a fresh hierarchy [[[3]]] by computing
    the results, adding a student and assigning the total 3. *)
Example assigned_state_reached (g : Js.rng) :
  (updateStudentTotalScore 1 (Some (Num 3))
     (addStudent
        (calculateCombinations (mkAppState [[[Num 3]]] None None [] 1 None)))
     g).1
  = assigned_state.
Proof. reflexivity. Qed.



(** ** The sum generator does not depend on the order of the groups *)

Lemma picks_Permutation sets sets' :
  sets ≡ₚ sets' →
  ∀ s, (∃ choice, picks choice sets ∧ total choice = s)
       → ∃ choice, picks choice sets' ∧ total choice = s.
Proof.
  induction 1 as [|g sets sets' _ IH|g1 g2 sets|sets1 sets2 sets3 _ IH1 _ IH2];
    intros s (choice & Hp & <-).
  - by exists choice.
  - apply Forall2_cons_inv_r in Hp as (v & choice' & Hv & Hp & ->).
    destruct (IH (total choice')) as (choice'' & Hp' & Hsum); [by eexists|].
    exists (v :: choice''). split; [by constructor|].
    by rewrite !total_cons, Hsum.
  - apply Forall2_cons_inv_r in Hp as (v2 & choice' & Hv2 & Hp & ->).
    apply Forall2_cons_inv_r in Hp as (v1 & choice'' & Hv1 & Hp & ->).
    exists (v1 :: v2 :: choice''). split; [by repeat constructor|].
    rewrite !total_cons, !add_assoc. f_equal. apply add_comm.
  - apply IH2, IH1. by exists choice.
Qed.

Lemma calculateCartesianSum_Permutation_elem_of sets sets' s :
  sets ≡ₚ sets' →
  s ∈ calculateCartesianSum sets ↔ s ∈ calculateCartesianSum sets'.
Proof.
  intros Hperm.
  destruct (decide (sets = [])) as [->|Hne].
  { by apply Permutation_nil_l in Hperm as ->. }
  assert (sets' ≠ []) as Hne'.
  { intros ->. by apply Permutation_nil_r in Hperm. }
  rewrite !calculateCartesianSum_elem_of by done. split.
  - by apply picks_Permutation.
  - by apply picks_Permutation.
Qed.



(** * Further properties *)

(** ** The search against the plain enumeration *)

Lemma choices_elem_of groups c : c ∈ choices groups ↔ picks c groups.
Proof.
  revert c. induction groups as [|group groups IH]; intros c; simpl.
  - rewrite list_elem_of_singleton. split; [intros ->; constructor|].
    by intros ->%Forall2_nil_inv_r.
  - rewrite list_elem_of_In, in_flat_map. split.
    + intros (v & Hv & Hc). apply in_map_iff in Hc as (choice & <- & Hchoice).
      constructor; [by apply list_elem_of_In|].
      by apply IH, list_elem_of_In.
    + intros (v & choice & Hv & Hp & ->)%Forall2_cons_inv_r.
      exists v. split; [by apply list_elem_of_In|].
      apply in_map_iff. exists choice. split; [done|].
      by apply list_elem_of_In, IH.
Qed.

Lemma filter_map_cons (P : list number → Prop) `{!∀ c, Decision (P c)}
    (v : number) (l : list (list number)) :
  filter P (map (λ choice, v :: choice) l)
  = map (λ choice, v :: choice) (filter (λ choice, P (v :: choice)) l).
Proof.
  induction l as [|c l IH]; [done|]. simpl. rewrite !filter_cons, IH.
  by destruct (decide (P (v :: c))).
Qed.

Lemma filter_none {A} (P : A → Prop) `{!∀ x, Decision (P x)} (l : list A) :
  (∀ x, x ∈ l → ¬ P x) → filter P l = [].
Proof.
  induction l as [|x l IH]; intros Hl; [done|].
  rewrite filter_cons_False by (apply Hl; left).
  apply IH. intros y Hy. apply Hl. by right.
Qed.

Lemma findItemCombinations_backtrack_enumerates (t : Z) rest :
  Forall (Forall positive) rest →
  ∀ (s : Z) current combinations,
    findItemCombinations_backtrack (Num t) rest (Num s) current combinations
    = combinations
      ++ map (λ choice, current ++ choice)
           (filter (λ choice, Js.add (Num s) (total choice) = Num t)
              (choices rest)).
Proof.
  induction rest as [|scores rest IH]; intros Hpos s current combinations.
  - simpl. rewrite filter_cons, filter_nil. simpl.
    destruct (Z.eqb_spec s t) as [->|Hne].
    + rewrite decide_True by (f_equal; lia). simpl. by rewrite app_nil_r.
    + rewrite decide_False; [by rewrite app_nil_r|].
      intros [= ?]. lia.
  - apply Forall_cons in Hpos as [Hscores Hpos]. specialize (IH Hpos).
    cbn [findItemCombinations_backtrack choices].
    revert combinations.
    induction scores as [|score scores IHs]; intros combinations.
    + simpl. by rewrite app_nil_r.
    + apply Forall_cons in Hscores as [Hscore Hscores].
      cbn [foldl flat_map]. rewrite filter_app, map_app, (assoc_L (++)).
      rewrite (IHs Hscores). f_equal.
      apply positive_Num in Hscore as (v & -> & Hv).
      change (Js.add (Num s) (Num v)) with (Num (s + v)).
      rewrite filter_map_cons. unfold Js.leb.
      destruct (Z.leb_spec (s + v) t) as [Hle|Hgt].
      * rewrite IH. f_equal. rewrite <- !list_fmap_compose.
        rewrite (list_filter_iff
                   (λ choice, Js.add (Num s) (total (Num v :: choice)) = Num t)
                   (λ choice, Js.add (Num (s + v)) (total choice) = Num t)).
        -- apply list_fmap_ext. intros _ choice _. simpl.
           by rewrite <- (assoc_L (++)).
        -- intros choice. by rewrite total_cons, add_assoc.
      * rewrite filter_none; [by rewrite app_nil_r|].
        intros choice Hchoice%choices_elem_of Hsum.
        destruct (picks_total_nonneg choice rest Hpos Hchoice) as (z & Hz & ?).
        rewrite total_cons, Hz in Hsum. injection Hsum as Hsum. lia.
Qed.



(** ** When the sum generator returns nothing *)

Lemma picks_exists groups :
  Forall (λ group, group ≠ []) groups → ∃ choice, picks choice groups.
Proof.
  induction 1 as [|group groups Hgroup _ [choice IH]].
  - exists []. constructor.
  - destruct group as [|v group]; [done|].
    exists (v :: choice). constructor; [left|done].
Qed.

Lemma picks_no_empty_group choice groups :
  picks choice groups → [] ∉ groups.
Proof.
  induction 1 as [|v group choice groups Hv _ IH]; [by apply not_elem_of_nil|].
  intros [<-|?]%elem_of_cons; [|done]. by apply elem_of_nil in Hv.
Qed.

(** X2. [calculateCartesianSum] returns the empty list exactly when it is
    given no group or one of the groups is empty. *)
Theorem calculateCartesianSum_empty (sets : list (list number)) :
  calculateCartesianSum sets = [] ↔ sets = [] ∨ [] ∈ sets.
Proof.
  destruct (decide (sets = [])) as [->|Hne]; [by split; [left|]|].
  split.
  - intros Hnil. right.
    destruct (decide ([] ∈ sets)) as [|Hnot]; [done|].
    destruct (picks_exists sets) as [choice Hp].
    { apply Forall_forall. by intros group Hgroup ->. }
    assert (total choice ∈ calculateCartesianSum sets) as Hin.
    { apply calculateCartesianSum_elem_of; [done|]. by exists choice. }
    rewrite Hnil in Hin. by apply elem_of_nil in Hin.
  - intros [?|Hin]; [done|].
    destruct (calculateCartesianSum sets) as [|s out] eqn:Hout; [done|].
    assert (s ∈ calculateCartesianSum sets) as Hs by (rewrite Hout; left).
    apply calculateCartesianSum_elem_of in Hs as (choice & Hp & _); [|done].
    by apply picks_no_empty_group in Hp.
Qed.

(** ** Two levels of sums against one *)

Lemma total_app l1 l2 : total (l1 ++ l2) = Js.add (total l1) (total l2).
Proof.
  induction l1 as [|a l1 IH].
  - symmetry. apply add_0_l.
  - rewrite <- app_comm_cons, !total_cons, IH. apply add_assoc.
Qed.

Lemma total_concat (chs : list (list number)) :
  total (concat chs) = total (map total chs).
Proof.
  induction chs as [|ch chs IH]; [done|].
  change (concat (ch :: chs)) with (ch ++ concat chs).
  change (map total (ch :: chs)) with (total ch :: map total chs).
  by rewrite total_app, total_cons, IH.
Qed.

Lemma picks_app c1 c2 g1 g2 :
  picks c1 g1 → picks c2 g2 → picks (c1 ++ c2) (g1 ++ g2).
Proof. apply Forall2_app. Qed.

Lemma picks_concat (its : list (list (list number))) flat :
  picks flat (concat its)
  ↔ ∃ chs, flat = concat chs ∧ Forall2 picks chs its.
Proof.
  revert flat. induction its as [|item its IH]; intros flat; simpl.
  - split.
    + intros ->%Forall2_nil_inv_r. exists []. split; [done|constructor].
    + intros (chs & -> & ->%Forall2_nil_inv_r). constructor.
  - split.
    + intros Hp. apply Forall2_app_inv_r in Hp as (c1 & c2 & Hp1 & Hp2 & ->).
      apply IH in Hp2 as (chs & -> & Hchs).
      exists (c1 :: chs). split; [done|by constructor].
    + intros (chs & -> & Hchs).
      apply Forall2_cons_inv_r in Hchs as (c1 & chs' & Hp1 & Hchs & ->).
      simpl. apply picks_app; [done|]. apply IH. by exists chs'.
Qed.

Lemma picks_of_sums (its : list (list (list number))) choice :
  Forall (λ item, item ≠ []) its →
  picks choice (map calculateCartesianSum its)
  ↔ ∃ chs, choice = map total chs ∧ Forall2 picks chs its.
Proof.
  intros Hne. revert choice.
  induction Hne as [|item its Hitem _ IH]; intros choice; simpl.
  - split.
    + intros ->%Forall2_nil_inv_r. exists []. split; [done|constructor].
    + intros (chs & -> & ->%Forall2_nil_inv_r). constructor.
  - split.
    + intros (v & choice' & Hv & Hp & ->)%Forall2_cons_inv_r.
      apply calculateCartesianSum_elem_of in Hv as (ch & Hch & <-); [|done].
      apply IH in Hp as (chs & -> & Hchs).
      exists (ch :: chs). split; [done|by constructor].
    + intros (chs & -> & Hchs).
      apply Forall2_cons_inv_r in Hchs as (ch & chs' & Hch & Hchs & ->).
      simpl. constructor.
      * apply calculateCartesianSum_elem_of; [done|]. by exists ch.
      * apply IH. by exists chs'.
Qed.



(** ** The standard deviation *)

Lemma fraction_sum_ints (zs : list Z) (q : Q) :
  foldl (λ a b, fraction_add a (fraction_of b)) (Frac q) (map Num zs)
  = Frac (foldl (λ a z, a + inject_Z z)%Q q zs).
Proof.
  revert q. induction zs as [|z zs IH]; intros q; [done|]. apply IH.
Qed.

Lemma fraction_sum_squares (m : Q) (zs : list Z) (q : Q) :
  foldl fraction_add (Frac q)
    (map (λ x, fraction_square (fraction_sub (fraction_of x) (Frac m)))
       (map Num zs))
  = Frac (foldl (λ a z, a + (inject_Z z - m) * (inject_Z z - m))%Q q zs).
Proof.
  revert q. induction zs as [|z zs IH]; intros q; [done|]. apply IH.
Qed.

Lemma ints_map_Num arr : Forall is_int arr → ∃ zs, arr = map Num zs.
Proof.
  induction 1 as [|x arr [z ->]%is_int_Num _ [zs ->]].
  - by exists [].
  - by exists (z :: zs).
Qed.

Lemma sum_linear (c : Z) (zs : list Z) (q : Q) :
  Forall (λ z, z = c) zs →
  (foldl (λ a z, a + inject_Z z) q zs
   == q + Js.of_nat (length zs) * inject_Z c)%Q.
Proof.
  intros Hall. revert q. induction Hall as [|z zs -> _ IH]; intros q.
  - unfold Js.of_nat. simpl. ring.
  - cbn [foldl length]. rewrite IH. unfold Js.of_nat.
    rewrite Nat2Z.inj_succ, <- Z.add_1_r, inject_Z_plus. ring.
Qed.

Lemma squares_nonneg (m : Q) (zs : list Z) (q : Q) :
  (0 <= q)%Q →
  (q <= foldl (λ a z, a + (inject_Z z - m) * (inject_Z z - m)) q zs)%Q.
Proof.
  revert q. induction zs as [|z zs IH]; intros q Hq; [apply Qle_refl|].
  cbn [foldl]. generalize (inject_Z z - m)%Q. intros x.
  apply Qle_trans with (q + x * x)%Q; [nra|apply IH; nra].
Qed.

Lemma squares_zero (m : Q) (zs : list Z) (q : Q) :
  (0 <= q)%Q →
  (foldl (λ a z, a + (inject_Z z - m) * (inject_Z z - m)) q zs == 0)%Q
  ↔ (q == 0)%Q ∧ Forall (λ z, (inject_Z z == m)%Q) zs.
Proof.
  revert q. induction zs as [|z zs IH]; intros q Hq.
  - simpl. split; [by split|by intros [? _]].
  - cbn [foldl]. rewrite Forall_cons.
    assert (inject_Z z == m ↔ inject_Z z - m == 0)%Q as -> by (split; lra).
    generalize (inject_Z z - m)%Q. intros x.
    rewrite IH by nra. split.
    + intros [Hsum Hall]. split_and!; [nra| |done].
      assert (x * x == 0)%Q as Hsq by nra.
      apply Qmult_integral in Hsq. tauto.
    + intros (Hq0 & Hz & Hall). split; [|done]. rewrite Hq0, Hz. ring.
Qed.

(** The standard deviation of a non-empty array of integers. *)
Lemma calculateStdDev_ints (zs : list Z) :
  zs ≠ [] →
  calculateStdDev (map Num zs)
  = Sqrt (Frac
      (foldl (λ a z,
                a + (inject_Z z
                     - foldl (λ a z, a + inject_Z z) 0 zs
                       / Js.of_nat (length zs))
                    * (inject_Z z
                       - foldl (λ a z, a + inject_Z z) 0 zs
                         / Js.of_nat (length zs)))%Q 0%Q zs
       / Js.of_nat (length zs))%Q).
Proof.
  intros Hne. unfold calculateStdDev. rewrite length_map.
  destruct zs as [|z zs]; [done|]. cbn [length Nat.eqb].
  rewrite fraction_sum_ints. cbn [fraction_div].
  by rewrite fraction_sum_squares.
Qed.

Lemma of_nat_pos n : 0 < n → (0 < Js.of_nat n)%Q.
Proof.
  intros Hn. unfold Js.of_nat. rewrite <- (Zlt_Qlt 0). lia.
Qed.



(** ** The range of the balance selector *)

Lemma topCount_of_few n : n ≤ 3 → topCount_of n = 1.
Proof.
  intros Hn. destruct n as [|[|[|[|n]]]]; [reflexivity..|lia].
Qed.

Lemma topCount_of_le n : 0 < n → topCount_of n ≤ n.
Proof.
  intros Hn. rewrite topCount_of_eq.
  assert ((3 * n + 9) / 10 < S n); [|lia].
  apply Nat.Div0.div_lt_upper_bound. lia.
Qed.

(** With two candidates or more, the candidate returned is read at the
    index that the draw gives in the top fraction of the ranking. *)
Lemma selectBalancedCombination_many c1 c2 combinations g :
  let l := c1 :: c2 :: combinations in
  let top :=
    take (topCount_of (length l))
      (Js.Array_sort
         (λ a b, stddev_sub_sign (calculateStdDev a) (calculateStdDev b)) l) in
  (selectBalancedCombination l g).1
  = nth (Js.Math_floor (Js.draw_value (g 0) * Js.of_nat (length top))) top [].
Proof.
  intros l top. unfold selectBalancedCombination. fold l. cbv zeta.
  unfold Js.Math_random. unfold l at 1. cbn [fst].
  rewrite Array_sort_length, length_map, fmap_take, withStdDev_sorted.
  fold top.
  replace (length (take _ (Js.Array_sort _ (map _ l)))) with (length top);
    [done|].
  unfold top. by rewrite !length_take, !Array_sort_length, length_map.
Qed.

Lemma randomIndex_exact (k m : nat) :
  k < m → Js.Math_floor (Js.draw_value (Js.Draw k (m - k - 1)) * Js.of_nat m) = k.
Proof.
  intros Hk.
  unfold Js.Math_floor, Js.draw_value, Js.of_nat, Qmult, Qfloor, inject_Z.
  cbn [Js.numer Js.gap Qnum Qden]. rewrite Pos.mul_1_r.
  replace (Z.pos (Pos.of_succ_nat (k + (m - k - 1)))) with (Z.of_nat m) by lia.
  rewrite Z.div_mul by lia. apply Nat2Z.id.
Qed.





(** ** Assigning a total score *)

(** The loop over the items gives every item element scores that are values
    of its elements and sum to the score of the item. *)
Lemma assignElementScores_picks selectedItemScores its :
  Forall (Forall (Forall positive)) its →
  ∀ i elementScores g before after,
    selectedItemScores = before ++ after →
    length before = i →
    picks after (map calculateCartesianSum its) →
    ∃ new,
      (assignElementScores selectedItemScores i its elementScores g).1
      = elementScores ++ new
      ∧ Forall2 picks new its
      ∧ Forall2 (λ scores v, total scores = v) new after.
Proof.
  induction its as [|item its IH];
    intros Hpos i elementScores g before after -> Hlen Hp.
  - apply Forall2_nil_inv_r in Hp as ->. exists [].
    split_and!; [simpl; by rewrite app_nil_r|constructor..].
  - apply Forall_cons in Hpos as [Hitem Hpos].
    apply Forall2_cons_inv_r in Hp as (v & after' & Hv & Hp & ->).
    cbn [assignElementScores].
    assert (Js.index (before ++ v :: after') i = v) as ->.
    { unfold Js.index. subst i. by rewrite list_lookup_middle. }
    rewrite findElementCombinations_same.
    destruct (generated_sum_decomposes item v Hitem Hv) as (t & choice & -> & Hc).
    assert (findItemCombinations (Num t) item ≠ []) as Hne.
    { intros Hnil. rewrite Hnil in Hc. by apply elem_of_nil in Hc. }
    pose proof (selectBalancedCombination_elem_of _ g Hne) as Hsel.
    destruct (selectBalancedCombination _ g) as [selectedElements g'].
    cbn [fst] in Hsel.
    apply findItemCombinations_elem_of in Hsel as [Hpick Hsum]; [|done].
    destruct (IH Hpos (S i) (elementScores ++ [selectedElements]) g'
                (before ++ [Num t]) after') as (new & Hnew & Hpicks & Hsums).
    + by rewrite <- (assoc_L (++)).
    + rewrite length_app. simpl. lia.
    + done.
    + exists (selectedElements :: new). split_and!.
      * rewrite Hnew. by rewrite <- (assoc_L (++)).
      * by constructor.
      * by constructor.
Qed.

Lemma updateStudentTotalScore_assigned (target : nat) (score : number) (st : AppState)
    (g : Js.rng) (r : Results) :
  results_current st →
  results st = Some r →
  score ∈ totalResult r →
  ∃ itemScores' elementScores',
    students (updateStudentTotalScore target (Some score) st g).1
    = map (λ s, if (id s =? target)%nat
                then mkStudent (id s) (name s) (Some score)
                       itemScores' elementScores'
                else s)
          (students st)
    ∧ picks itemScores' (itemResults r)
    ∧ total itemScores' = score
    ∧ Forall2 picks elementScores' (items st)
    ∧ Forall2 (λ scores v, total scores = v) elementScores' itemScores'.
Proof.
  intros Hcur Hr Hscore. unfold results_current in Hcur. rewrite Hr in Hcur.
  destruct Hcur as [Hv ->]. cbn [totalResult itemResults results_of] in *.
  apply validate_None in Hv. pose proof (itemResults_positive _ Hv) as Hpos.
  destruct (generated_sum_decomposes _ _ Hpos Hscore) as (t & choice & -> & Hc).
  unfold updateStudentTotalScore. rewrite Hr. cbn [itemResults results_of].
  destruct (findItemCombinations (Num t) (map calculateCartesianSum (items st)))
    as [|c0 cs] eqn:Hfind; [by apply elem_of_nil in Hc|].
  cbn [length Nat.eqb].
  assert (findItemCombinations (Num t) (map calculateCartesianSum (items st)) ≠ [])
    as Hne by (by rewrite Hfind).
  pose proof (selectBalancedCombination_elem_of _ g Hne) as Hsel.
  rewrite Hfind in Hsel.
  destruct (selectBalancedCombination (c0 :: cs) g) as [selected g1].
  cbn [fst] in Hsel. rewrite <- Hfind in Hsel.
  apply findItemCombinations_elem_of in Hsel as [Hp Hsum]; [|done].
  destruct (assignElementScores_picks selected (items st) Hv 0 [] g1 []
              selected eq_refl eq_refl Hp) as (new & Hnew & Hpicks & Hsums).
  destruct (assignElementScores selected 0 (items st) [] g1)
    as [elementScores' g2].
  cbn [fst] in Hnew. subst elementScores'.
  exists selected, new. by split_and!.
Qed.


(** X7. A total score taken from [totalResult] is always assigned: the
    students with the given identifier get this total, item scores that are
    values of [itemResults] and sum to the total, and for each item element
    scores that are values of its elements and sum to the item score; the
    other students are left as they are. *)
Theorem assignment_succeeds (target : nat) (score : number) (st : AppState)
    (g : Js.rng) (r : Results) :
  results_current st →
  results st = Some r →
  score ∈ totalResult r →
  ∃ itemScores' elementScores',
    students (updateStudentTotalScore target (Some score) st g).1
    = map (λ s, if (id s =? target)%nat
                then mkStudent (id s) (name s) (Some score)
                       itemScores' elementScores'
                else s)
          (students st)
    ∧ picks itemScores' (itemResults r)
    ∧ total itemScores' = score
    ∧ Forall2 picks elementScores' (items st)
    ∧ Forall2 (λ scores v, total scores = v) elementScores' itemScores'.
Proof. apply updateStudentTotalScore_assigned. Qed.

Lemma assignment_succeeds_witness :
  let st := addStudent assigned_state in
  let g : Js.rng := λ _, Js.Draw 0 0 in
  let r := results_of [[[Num 3]]] in
  (results_current st ∧ results st = Some r ∧ Num 3 ∈ totalResult r)
  ∧ ∃ itemScores' elementScores',
      students (updateStudentTotalScore 2 (Some (Num 3)) st g).1
      = map (λ s, if (id s =? 2)%nat
                  then mkStudent (id s) (name s) (Some (Num 3))
                         itemScores' elementScores'
                  else s)
            (students st)
      ∧ picks itemScores' (itemResults r)
      ∧ total itemScores' = Num 3
      ∧ Forall2 picks elementScores' (items st)
      ∧ Forall2 (λ scores v, total scores = v) elementScores' itemScores'.
Proof.
  assert (H1 : results_current (addStudent assigned_state)) by (by split).
  assert (H3 : Num 3 ∈ totalResult (results_of [[[Num 3]]])) by left.
  exact (conj (conj H1 (conj eq_refl H3))
           (assignment_succeeds 2 (Num 3) (addStudent assigned_state)
              (λ _, Js.Draw 0 0) (results_of [[[Num 3]]]) H1 eq_refl H3)).
Defined.

Lemma map_update_frame (target : nat) (new : Student → Student)
    (l : list Student) :
  (∀ s, id (new s) = id s ∧ name (new s) = name s) →
  let l' := map (λ s, if (id s =? target)%nat then new s else s) l in
  map id l' = map id l
  ∧ map name l' = map name l
  ∧ ∀ i s, l !! i = Some s → id s ≠ target → l' !! i = Some s.
Proof.
  intros Hnew l'. unfold l'. split_and!.
  - rewrite <- !list_fmap_compose. apply list_fmap_ext. intros _ s _. simpl.
    destruct (id s =? target)%nat; [apply Hnew|done].
  - rewrite <- !list_fmap_compose. apply list_fmap_ext. intros _ s _. simpl.
    destruct (id s =? target)%nat; [apply Hnew|done].
  - intros i s Hi Hne. rewrite list_lookup_fmap, Hi. simpl.
    by apply Nat.eqb_neq in Hne as ->.
Qed.

Lemma updateStudentTotalScore_shape target score st g :
  (updateStudentTotalScore target score st g).1 = st
  ∨ ∃ new, (∀ s, id (new s) = id s ∧ name (new s) = name s)
           ∧ (updateStudentTotalScore target score st g).1
             = setStudents
                 (map (λ s, if (id s =? target)%nat then new s else s)
                    (students st))
                 st.
Proof.
  unfold updateStudentTotalScore.
  destruct score as [score|];
    [|right; by exists (λ s, mkStudent (id s) (name s) None [] [])].
  destruct (results st) as [r|];
    [|right; by exists (λ s, mkStudent (id s) (name s) None [] [])].
  destruct (length _ =? 0)%nat; [by left|].
  destruct (selectBalancedCombination _ g) as [selected g1].
  destruct (assignElementScores _ _ _ _ _) as [elementScores' g2].
  right.
  by exists (λ s, mkStudent (id s) (name s) (Some score) selected elementScores').
Qed.

(** X8. Whatever the score and the state, [updateStudentTotalScore] keeps the
    number, the order, the identifiers and the names of the students,
    leaves every student with another identifier as it is, and changes no
    other cell of the state. *)
Theorem updateStudentTotalScore_touches_target_only (target : nat)
    (score : option number) (st : AppState) (g : Js.rng) :
  let st' := (updateStudentTotalScore target score st g).1 in
  map id (students st') = map id (students st)
  ∧ map name (students st') = map name (students st)
  ∧ (∀ i s, students st !! i = Some s → id s ≠ target →
            students st' !! i = Some s)
  ∧ setStudents (students st) st' = st.
Proof.
  intros st'. unfold st'.
  destruct (updateStudentTotalScore_shape target score st g)
    as [->|(new & Hnew & ->)].
  - split_and!; [done..|]. by destruct st.
  - destruct (map_update_frame target new (students st) Hnew)
      as (Hid & Hname & Hother).
    split_and!; [done..|]. by destruct st.
Qed.

(** ** The shape and the validity of the hierarchy under edits *)

Lemma delete_nonempty {A} (i : nat) (l : list A) :
  ¬ (length l ≤ 1) → delete i l ≠ [].
Proof.
  intros Hlen Hnil. apply (f_equal length) in Hnil.
  rewrite delete_take_drop, length_app, length_take, length_drop in Hnil.
  simpl in Hnil. lia.
Qed.

Lemma item_shape_lookup (its : list Item) i item :
  hierarchy_shape_ok its → its !! i = Some item →
  item ≠ [] ∧ Forall (λ element : EvaluationElement, element ≠ []) item.
Proof.
  intros [_ Hall] Hi. eapply Forall_forall in Hall; [done|].
  by eapply list_elem_of_lookup_2.
Qed.

Lemma hierarchy_shape_insert (its : list Item) i item :
  hierarchy_shape_ok its →
  item ≠ [] → Forall (λ element : EvaluationElement, element ≠ []) item →
  hierarchy_shape_ok (<[i:=item]> its).
Proof.
  intros [Hne Hall] Hitem Helements. split.
  - intros Hnil. apply (f_equal length) in Hnil.
    rewrite length_insert in Hnil. by destruct its.
  - by apply Forall_insert.
Qed.

Lemma apply_edit_shape e st :
  hierarchy_shape_ok (items st) → hierarchy_shape_ok (items (apply_edit e st)).
Proof.
  intros Hok. destruct e as [|i|i|i j|i j|i j k]; cbn [apply_edit].
  - destruct Hok as [Hne Hall]. split.
    + cbn [items clearResults setItems setError setResults addItem]. by destruct (items st).
    + cbn [items clearResults setItems setError setResults addItem]. apply Forall_app. split; [done|]. repeat constructor; done.
  - unfold removeItem. destruct (Nat.leb_spec (length (items st)) 1); [done|].
    destruct Hok as [Hne Hall]. split.
    + cbn [items clearResults setItems setError setResults addItem]. apply delete_nonempty. lia.
    + cbn [items clearResults setItems setError setResults addItem]. by apply Forall_delete.
  - unfold addEvaluationElement.
    destruct (items st !! i) as [item|] eqn:Hi; [|done].
    destruct (item_shape_lookup _ _ _ Hok Hi) as [Hitem Helements].
    cbn [items clearResults setItems setError setResults].
    apply hierarchy_shape_insert; [done|by destruct item|].
    apply Forall_app. split; [done|]. repeat constructor; done.
  - unfold removeEvaluationElement.
    destruct (items st !! i) as [item|] eqn:Hi; [|done].
    destruct (Nat.leb_spec (length item) 1); [done|].
    destruct (item_shape_lookup _ _ _ Hok Hi) as [Hitem Helements].
    cbn [items clearResults setItems setError setResults].
    apply hierarchy_shape_insert; [done| |by apply Forall_delete].
    apply delete_nonempty. lia.
  - unfold addNumber.
    destruct (items st !! i) as [item|] eqn:Hi; [|done].
    destruct (item !! j) as [currentNumbers|] eqn:Hj; [|done].
    destruct (item_shape_lookup _ _ _ Hok Hi) as [Hitem Helements].
    cbn [items clearResults setItems setError setResults].
    apply hierarchy_shape_insert; [done| |].
    + intros Hnil. apply (f_equal length) in Hnil.
      unfold Item, EvaluationElement in *.
      rewrite length_insert in Hnil. by destruct item.
    + apply Forall_insert; [done|]. by destruct currentNumbers.
  - unfold removeNumber.
    destruct (items st !! i) as [item|] eqn:Hi; [|done].
    destruct (item !! j) as [numbers|] eqn:Hj; [|done].
    destruct (Nat.leb_spec (length numbers) 1); [done|].
    destruct (item_shape_lookup _ _ _ Hok Hi) as [Hitem Helements].
    cbn [items clearResults setItems setError setResults].
    apply hierarchy_shape_insert; [done| |].
    + intros Hnil. apply (f_equal length) in Hnil.
      unfold Item, EvaluationElement in *.
      rewrite length_insert in Hnil. by destruct item.
    + apply Forall_insert; [done|]. apply delete_nonempty. lia.
Qed.

(** X9. No edit empties a level of the hierarchy: when there is at least one
    item, every item has an element and every element has a number, the
    same holds after any structural edit, removals included. *)
Theorem edits_keep_hierarchy_shape (e : edit) (st : AppState) :
  hierarchy_shape_ok (items st) → hierarchy_shape_ok (items (apply_edit e st)).
Proof. apply apply_edit_shape. Qed.

Lemma edits_keep_hierarchy_shape_witness :
  let st := mkAppState [[[Num 1; Num 2]]] None None [] 1 None in
  hierarchy_shape_ok (items st)
  ∧ hierarchy_shape_ok (items (apply_edit (RemoveNumber 0 0 1) st))
  ∧ hierarchy_shape_ok
      (items (apply_edit (RemoveNumber 0 0 0)
                (apply_edit (RemoveNumber 0 0 1) st))).
Proof.
  assert (H : hierarchy_shape_ok [[[Num 1; Num 2]]]).
  { split; [discriminate|]. repeat constructor; discriminate. }
  pose proof (edits_keep_hierarchy_shape (RemoveNumber 0 0 1)
                (mkAppState [[[Num 1; Num 2]]] None None [] 1 None) H) as H1.
  exact (conj H (conj H1
           (edits_keep_hierarchy_shape (RemoveNumber 0 0 0) _ H1))).
Defined.

Lemma not_valid_with_zero (its : list Item) item element :
  item ∈ its → element ∈ item → Num 0 ∈ element → validate its ≠ None.
Proof.
  intros Hitem Helement Hzero Hvalid. apply validate_None in Hvalid.
  eapply Forall_forall in Hvalid; [|done].
  eapply Forall_forall in Hvalid; [|done].
  eapply Forall_forall in Hvalid; [|done].
  simpl in Hvalid. lia.
Qed.

Lemma calculateCombinations_invalid st :
  validate (items st) ≠ None →
  results (calculateCombinations st) = results st
  ∧ is_Some (error (calculateCombinations st)).
Proof.
  intros Hinvalid. unfold calculateCombinations.
  destruct (validate (items st)) as [message|]; [|done].
  split; [done|]. by exists message.
Qed.

(** X10. A new item and a new element start with the number 0, which
    [validate] rejects: right after [addItem], and after
    [addEvaluationElement] on an existing item, [calculateCombinations]
    computes no Results and sets an error message. *)
Theorem placeholder_blocks_results (st : AppState) (itemIndex : nat) :
  (results (calculateCombinations (addItem st)) = None
   ∧ is_Some (error (calculateCombinations (addItem st))))
  ∧ (is_Some (items st !! itemIndex) →
     results (calculateCombinations (addEvaluationElement itemIndex st)) = None
     ∧ is_Some
         (error (calculateCombinations (addEvaluationElement itemIndex st)))).
Proof.
  split.
  - apply (calculateCombinations_invalid (addItem st)).
    apply (not_valid_with_zero _ [[Num 0]] [Num 0]); [|left..].
    cbn [items clearResults setItems setError setResults]. apply elem_of_app. right. left.
  - intros [item Hitem]. unfold addEvaluationElement.
    unfold Item, EvaluationElement in *. rewrite Hitem.
    apply (calculateCombinations_invalid
             (clearResults
                (setItems (<[itemIndex:=item ++ [[Num 0]]]> (items st)) st))).
    apply (not_valid_with_zero _ (item ++ [[Num 0]]) [Num 0]); [| |left].
    + cbn [items clearResults setItems setError setResults addItem]. apply list_elem_of_lookup. exists itemIndex.
      apply list_lookup_insert_eq. by eapply lookup_lt_Some.
    + apply elem_of_app. right. left.
Qed.

Lemma placeholder_blocks_results_witness :
  let st := assigned_state in
  is_Some (items st !! 0)
  ∧ results (calculateCombinations (addEvaluationElement 0 st)) = None
  ∧ is_Some (error (calculateCombinations (addEvaluationElement 0 st))).
Proof.
  assert (H : is_Some (items assigned_state !! 0)) by (by eexists).
  exact (conj H (proj2 (placeholder_blocks_results assigned_state 0) H)).
Defined.

(** The value [addNumber] appends after two positive integers. *)
Lemma addNumber_newValue_progression (before : list number) (a b : Z) :
  (0 < a)%Z → (0 < b)%Z →
  addNumber_newValue (before ++ [Num a; Num b]) = Num (b + (b - a)).
Proof.
  intros Ha Hb. unfold addNumber_newValue.
  rewrite length_app. cbn [length].
  replace (2 <=? length before + 2)%nat with true
    by (symmetry; apply Nat.leb_le; lia).
  unfold Js.index.
  replace (length before + 2 - 1) with (length before + 1) by lia.
  replace (length before + 2 - 2) with (length before + 0) by lia.
  rewrite !lookup_app_r by lia.
  replace (length before + 1 - length before) with 1 by lia.
  replace (length before + 0 - length before) with 0 by lia.
  cbn [lookup list_lookup default Datatypes.id Js.gtb Js.isNaN negb].
  rewrite (proj2 (Z.ltb_lt 0 b)), (proj2 (Z.ltb_lt 0 a)) by done. done.
Qed.

Lemma valid_insert_iff (its : list Item) i j item element element' :
  its !! i = Some item → item !! j = Some element →
  Forall (Forall (Forall positive)) its →
  Forall (Forall (Forall positive)) (<[i := <[j := element']> item]> its)
  ↔ Forall positive element'.
Proof.
  intros Hi Hj Hvalid. split.
  - intros Hall.
    assert (<[j:=element']> item ∈ <[i:=<[j:=element']> item]> its) as Hin.
    { apply list_elem_of_lookup. exists i.
      apply list_lookup_insert_eq. by eapply lookup_lt_Some. }
    eapply Forall_forall in Hall; [|done].
    eapply Forall_forall in Hall; [done|].
    apply list_elem_of_lookup. exists j.
    apply list_lookup_insert_eq. by eapply lookup_lt_Some.
  - intros Helement. apply Forall_insert; [done|].
    apply Forall_insert; [|done].
    eapply Forall_forall in Hvalid; [done|]. by eapply list_elem_of_lookup_2.
Qed.



Lemma apply_removal_valid e st :
  removal e →
  Forall (Forall (Forall positive)) (items st) →
  Forall (Forall (Forall positive)) (items (apply_edit e st)).
Proof.
  intros Hremoval Hvalid.
  destruct e as [|i|i|i j|i j|i j k]; try done; cbn [apply_edit].
  - unfold removeItem. destruct (length (items st) <=? 1)%nat; [done|].
    cbn [items clearResults setItems setError setResults]. by apply Forall_delete.
  - unfold removeEvaluationElement.
    destruct (items st !! i) as [item|] eqn:Hi; [|done].
    destruct (length item <=? 1)%nat; [done|].
    cbn [items clearResults setItems setError setResults]. apply Forall_insert; [done|]. apply Forall_delete.
    eapply Forall_forall in Hvalid; [done|]. by eapply list_elem_of_lookup_2.
  - unfold removeNumber.
    destruct (items st !! i) as [item|] eqn:Hi; [|done].
    destruct (item !! j) as [numbers|] eqn:Hj; [|done].
    destruct (length numbers <=? 1)%nat; [done|].
    eapply Forall_forall in Hvalid as Hitem; [|by eapply list_elem_of_lookup_2].
    cbn [items clearResults setItems setError setResults]. apply Forall_insert; [done|]. apply Forall_insert; [done|].
    apply Forall_delete.
    eapply Forall_forall in Hitem; [done|]. by eapply list_elem_of_lookup_2.
Qed.

(** X12. Removing an item, an element or a number from a hierarchy that passes
    [validate] gives a hierarchy that passes it again. *)
Theorem removals_keep_validity (e : edit) (st : AppState) :
  removal e →
  validate (items st) = None →
  validate (items (apply_edit e st)) = None.
Proof.
  intros Hremoval Hvalid. apply validate_None.
  apply apply_removal_valid; [done|]. by apply validate_None.
Qed.

Lemma removals_keep_validity_witness :
  let st := mkAppState [[[Num 1; Num 2]; [Num 3]]] None None [] 1 None in
  (removal (RemoveEvaluationElement 0 1) ∧ validate (items st) = None)
  ∧ validate (items (apply_edit (RemoveEvaluationElement 0 1) st)) = None.
Proof.
  exact (conj (conj I eq_refl)
           (removals_keep_validity (RemoveEvaluationElement 0 1)
              (mkAppState [[[Num 1; Num 2]; [Num 3]]] None None [] 1 None)
              I eq_refl)).
Defined.

(** ** What holds of every state the application reaches *)

Lemma apply_edit_frame e st :
  students (apply_edit e st) = students st
  ∧ nextStudentId (apply_edit e st) = nextStudentId st
  ∧ (apply_edit e st = st ∨ results (apply_edit e st) = None).
Proof.
  destruct e as [|i|i|i j|i j|i j k]; cbn [apply_edit].
  - split_and!; [done..|by right].
  - unfold removeItem. destruct (length (items st) <=? 1)%nat.
    + split_and!; [done..|by left].
    + split_and!; [done..|by right].
  - unfold addEvaluationElement. destruct (items st !! i) as [item|].
    + split_and!; [done..|by right].
    + split_and!; [done..|by left].
  - unfold removeEvaluationElement.
    destruct (items st !! i) as [item|]; [|split_and!; [done..|by left]].
    destruct (length item <=? 1)%nat.
    + split_and!; [done..|by left].
    + split_and!; [done..|by right].
  - unfold addNumber.
    destruct (items st !! i) as [item|]; [|split_and!; [done..|by left]].
    destruct (item !! j) as [currentNumbers|].
    + split_and!; [done..|by right].
    + split_and!; [done..|by left].
  - unfold removeNumber.
    destruct (items st !! i) as [item|]; [|split_and!; [done..|by left]].
    destruct (item !! j) as [numbers|]; [|split_and!; [done..|by left]].
    destruct (length numbers <=? 1)%nat.
    + split_and!; [done..|by left].
    + split_and!; [done..|by right].
Qed.

Lemma apply_edit_invariant e st :
  app_invariant st → app_invariant (apply_edit e st).
Proof.
  intros (Hcur & Hok & [Hnodup Hbelow] & Hshape).
  destruct (apply_edit_frame e st) as (Hstudents & Hnext & Hresults).
  split_and!.
  - destruct Hresults as [->|Hnone]; [done|].
    unfold results_current. by rewrite Hnone.
  - by rewrite Hstudents.
  - unfold ids_fresh. by rewrite Hstudents, Hnext.
  - by apply apply_edit_shape.
Qed.

Lemma ids_fresh_update (target : nat) (new : Student → Student) st :
  (∀ s, id (new s) = id s) →
  ids_fresh st →
  ids_fresh
    (setStudents
       (map (λ s, if (id s =? target)%nat then new s else s) (students st)) st).
Proof.
  intros Hnew [Hnodup Hbelow].
  split; cbn [students nextStudentId setStudents].
  - rewrite <- list_fmap_compose.
    erewrite list_fmap_ext; [exact Hnodup|]. intros _ s _. simpl.
    destruct (id s =? target)%nat; [apply Hnew|done].
  - apply Forall_fmap. eapply Forall_impl; [exact Hbelow|]. intros s Hs. simpl.
    destruct (id s =? target)%nat; [|done]. by rewrite Hnew.
Qed.

Lemma apply_student_operation_invariant op st g :
  app_invariant st → app_invariant (apply_student_operation op st g).1.
Proof.
  intros (Hcur & Hok & [Hnodup Hbelow] & Hshape).
  destruct op as [|target|target new_name|target score|];
    cbn [apply_student_operation fst].
  - split_and!; [done| | |done].
    + cbn [addStudent students setStudents setNextStudentId].
      apply Forall_app. split; [done|]. repeat constructor.
    + split; cbn [addStudent students nextStudentId setStudents
                    setNextStudentId].
      * rewrite map_app. apply NoDup_app. split_and!; [done| |].
        -- intros i Hi [->|[]%elem_of_nil]%elem_of_cons.
           apply list_elem_of_fmap in Hi as (s & Hs & Hin).
           rewrite Forall_forall in Hbelow. specialize (Hbelow s Hin).
           simpl in *. lia.
        -- apply NoDup_singleton.
      * apply Forall_app. split.
        -- eapply Forall_impl; [exact Hbelow|]. intros s Hs. simpl in *. lia.
        -- repeat constructor. simpl. lia.
  - split_and!; [done| | |done].
    + cbn [removeStudent students setStudents].
      rewrite Forall_forall in Hok |- *. intros s Hs.
      apply list_elem_of_filter in Hs as [_ Hs]. by apply Hok.
    + split; cbn [removeStudent students nextStudentId setStudents].
      * apply NoDup_fmap_2_strong; [|by apply NoDup_filter; eapply NoDup_fmap_1].
        intros s1 s2 [_ H1]%list_elem_of_filter [_ H2]%list_elem_of_filter Hid.
        apply list_elem_of_lookup in H1 as [i1 H1].
        apply list_elem_of_lookup in H2 as [i2 H2].
        assert (i1 = i2) as ->; [|congruence].
        eapply NoDup_lookup; [done| |]; rewrite list_lookup_fmap.
        -- by rewrite H1.
        -- rewrite H2. simpl. by rewrite Hid.
      * rewrite Forall_forall in Hbelow |- *. intros s Hs.
        apply list_elem_of_filter in Hs as [_ Hs]. by apply Hbelow.
  - split_and!; [done| | |done].
    + cbn [updateStudentName students setStudents].
      apply Forall_fmap. eapply Forall_impl; [exact Hok|]. intros s Hs. simpl.
      by destruct (id s =? target)%nat.
    + apply (ids_fresh_update target
               (λ s, mkStudent (id s) new_name (totalScore s) (itemScores s)
                       (elementScores s))); [|done].
      done.
  - split_and!.
    + destruct (updateStudentTotalScore_frame target score st g) as [Hi Hr].
      unfold results_current. by rewrite Hi, Hr.
    + by apply updateStudentTotalScore_ok.
    + destruct (updateStudentTotalScore_shape target score st g)
        as [->|(new & Hnew & ->)]; [done|].
      apply ids_fresh_update; [|done]. intros s. apply Hnew.
    + by rewrite (proj1 (updateStudentTotalScore_frame target score st g)).
  - split_and!.
    + by apply calculateCombinations_current.
    + by apply calculateCombinations_students_ok.
    + unfold calculateCombinations. destruct (validate (items st)); [done|].
      split; cbn; constructor.
    + unfold calculateCombinations. by destruct (validate (items st)).
Qed.

Lemma resetAll_invariant st : app_invariant (resetAll st).
Proof.
  split_and!; [done|constructor| |].
  - split; cbn; constructor.
  - split; [done|]. repeat constructor; done.
Qed.

Lemma apply_action_invariant a st g :
  app_invariant st → app_invariant (apply_action a st g).1.
Proof.
  intros Hinv. destruct a as [e|op|]; cbn [apply_action fst].
  - by apply apply_edit_invariant.
  - by apply apply_student_operation_invariant.
  - apply resetAll_invariant.
Qed.

(** X13. Whatever the user does (edits of the hierarchy, operations on the
    students, computing the results, a reset, in any order and with any
    random draws), the state keeps these facts once they hold, as they do
    after a reset: the Results shown were computed from the current
    hierarchy, every student record satisfies its invariant, the student
    identifiers are distinct and below the next identifier, and no level of
    the hierarchy is empty. *)
Theorem reachable_states_invariant (actions : list action) (st : AppState)
    (g : Js.rng) :
  app_invariant st → app_invariant (run actions st g).1.
Proof.
  unfold run. revert st g.
  induction actions as [|a actions IH]; intros st g Hinv; [done|].
  cbn [foldl fst snd]. destruct (apply_action a st g) as [st' g'] eqn:Ha.
  apply IH. pose proof (apply_action_invariant a st g Hinv) as Hinv'.
  by rewrite Ha in Hinv'.
Qed.

Lemma reachable_states_invariant_witness :
  let actions :=
    [EditAction (AddNumber 0 0); StudentAction CalculateCombinations;
     StudentAction AddStudent;
     StudentAction (UpdateStudentTotalScore 1 (Some (Num 3)));
     StudentAction AddStudent; StudentAction (RemoveStudent 1);
     EditAction AddItem] in
  let g : Js.rng := λ _, Js.Draw 0 0 in
  app_invariant (resetAll assigned_state)
  ∧ app_invariant (run actions (resetAll assigned_state) g).1.
Proof.
  pose proof (resetAll_invariant assigned_state) as H.
  exact (conj H (reachable_states_invariant _ _ (λ _, Js.Draw 0 0) H)).
Defined.

(** ** CSV export *)

Lemma csv_headers_elements_length itemIndex item : ∀ elemIndex headers,
  length (csv_headers_elements itemIndex elemIndex item headers)
  = length headers + length item.
Proof.
  induction item as [|element item IH]; intros elemIndex headers; simpl.
  - lia.
  - rewrite IH, length_app. simpl. lia.
Qed.

Lemma csv_row_elements_length student itemIndex item : ∀ elemIndex row,
  length (csv_row_elements student itemIndex elemIndex item row)
  = length row + length item.
Proof.
  induction item as [|element item IH]; intros elemIndex row; simpl.
  - lia.
  - rewrite IH, length_app. simpl. lia.
Qed.

Lemma csv_columns its student : ∀ itemIndex headers row,
  length row = length headers →
  length (csv_row_items student itemIndex its row)
  = length (csv_headers_items itemIndex its headers).
Proof.
  induction its as [|item its IH]; intros itemIndex headers row Hlen; [done|].
  simpl. apply IH.
  rewrite !length_app, csv_row_elements_length, csv_headers_elements_length.
  simpl. lia.
Qed.

Lemma csv_headers_items_length its : ∀ itemIndex headers,
  length (csv_headers_items itemIndex its headers)
  = length headers + length (concat its) + length its.
Proof.
  induction its as [|item its IH]; intros itemIndex headers; simpl.
  - lia.
  - rewrite IH, !length_app, csv_headers_elements_length. simpl. lia.
Qed.


(** ** The [Autocomplete] component *)

Lemma filterEffect_subset options st v :
  v ∈ Autocomplete.filteredOptions (Autocomplete.filterEffect options st) →
  v ∈ options.
Proof.
  cbn [Autocomplete.filterEffect Autocomplete.filteredOptions].
  case_bool_decide; [done|]. by intros [_ ?]%list_elem_of_filter.
Qed.

Lemma filterEffect_input options st st' :
  Autocomplete.inputValue st' = Autocomplete.inputValue st →
  Autocomplete.filteredOptions (Autocomplete.filterEffect options st')
  = Autocomplete.filteredOptions (Autocomplete.filterEffect options st).
Proof.
  intros Hinput. cbn [Autocomplete.filterEffect Autocomplete.filteredOptions].
  by rewrite Hinput.
Qed.

Lemma filterEffect_ok options st :
  autocomplete_ok options (Autocomplete.filterEffect options st).
Proof. split; [by apply filterEffect_input|by left]. Qed.

Lemma handleKeyDown_facts options value k st :
  autocomplete_ok options st →
  let '(st', out) := Autocomplete.handleKeyDown value k st in
  Autocomplete.filteredOptions st' = Autocomplete.filteredOptions st
  ∧ (Autocomplete.highlightedIndex st' = (-1)%Z
     ∨ (0 ≤ Autocomplete.highlightedIndex st'
        < Z.of_nat (length (Autocomplete.filteredOptions st')))%Z)
  ∧ ∀ v, out = Some (Some v) → v ∈ Autocomplete.filteredOptions st.
Proof.
  intros [Hsync Hrange]. unfold Autocomplete.handleKeyDown.
  destruct (Autocomplete.isOpen st); cbn [negb].
  - destruct k.
    + cbn [Autocomplete.filteredOptions Autocomplete.highlightedIndex].
      split_and!; [done| |done].
      destruct (Z.ltb_spec (Autocomplete.highlightedIndex st)
                  (Z.of_nat (length (Autocomplete.filteredOptions st)) - 1));
        [right; lia|done].
    + cbn [Autocomplete.filteredOptions Autocomplete.highlightedIndex].
      split_and!; [done| |done].
      destruct (Z.ltb_spec 0 (Autocomplete.highlightedIndex st));
        [right; lia|done].
    + destruct (0 <=? Autocomplete.highlightedIndex st)%Z; [|by split_and!].
      destruct (Autocomplete.filteredOptions st
                  !! Z.to_nat (Autocomplete.highlightedIndex st))
        as [option|] eqn:Hoption; [|by split_and!].
      destruct (truthy option); [|by split_and!].
      cbn [Autocomplete.handleSelect Autocomplete.filteredOptions
             Autocomplete.highlightedIndex].
      split_and!; [done..|].
      intros v [= <-]. by eapply list_elem_of_lookup_2.
    + by split_and!.
    + by split_and!.
  - destruct k; by split_and!.
Qed.

Lemma handle_facts Number options value ev st :
  autocomplete_ok options st →
  let '(st', out) := Autocomplete.handle Number options value ev st in
  Autocomplete.filteredOptions st' = Autocomplete.filteredOptions st
  ∧ (Autocomplete.highlightedIndex st' = (-1)%Z
     ∨ (0 ≤ Autocomplete.highlightedIndex st'
        < Z.of_nat (length (Autocomplete.filteredOptions st')))%Z)
  ∧ ∀ v, out = Some (Some v) → v ∈ options.
Proof.
  intros Hok. pose proof Hok as [Hsync Hrange].
  assert (∀ v, v ∈ Autocomplete.filteredOptions st → v ∈ options) as Hsub.
  { intros v Hv. rewrite Hsync in Hv. by eapply filterEffect_subset. }
  destruct ev as [k|val| | | |index|index]; cbn [Autocomplete.handle].
  - pose proof (handleKeyDown_facts options value k st Hok) as Hkey.
    destruct (Autocomplete.handleKeyDown value k st) as [st' out].
    destruct Hkey as (? & ? & Hout). split_and!; [done..|].
    intros v Hv. by apply Hsub, Hout.
  - unfold Autocomplete.handleInputChange. split_and!; [done..|].
    intros v. destruct (Js.isNaN (Number val)); [done|]. cbn [negb andb].
    case_bool_decide; [|done]. by intros [= <-].
  - by split_and!.
  - by split_and!.
  - by split_and!.
  - destruct (Autocomplete.isOpen st); [|by split_and!].
    destruct (Autocomplete.filteredOptions st !! index) as [option|] eqn:Hoption;
      [|by split_and!].
    split_and!; [done..|]. intros v [= <-].
    by eapply Hsub, list_elem_of_lookup_2.
  - destruct (Autocomplete.isOpen st); [|by split_and!]. cbn [andb].
    case_bool_decide; [|by split_and!].
    split_and!; [done| |done].
    cbn [Autocomplete.filteredOptions Autocomplete.highlightedIndex].
    right. lia.
Qed.

Lemma step_facts Number options value ev st :
  autocomplete_ok options st →
  autocomplete_ok options (Autocomplete.step Number options value ev st).1
  ∧ ∀ v, (Autocomplete.step Number options value ev st).2 = Some (Some v)
         → v ∈ options.
Proof.
  intros Hok. pose proof Hok as [Hsync Hrange].
  pose proof (handle_facts Number options value ev st Hok) as Hfacts.
  unfold Autocomplete.step.
  destruct (Autocomplete.handle Number options value ev st) as [st' out].
  destruct Hfacts as (Hsame & Hrange' & Hout). cbn [fst snd].
  split; [|done].
  case_bool_decide as Hinput; [|apply filterEffect_ok].
  split; [|done].
  by rewrite Hsame, Hsync, (filterEffect_input options st st').
Qed.

Lemma valueChanged_ok options value st :
  autocomplete_ok options st →
  autocomplete_ok options (Autocomplete.valueChanged options value st).
Proof.
  intros [Hsync Hrange]. unfold Autocomplete.valueChanged. cbv zeta.
  case_bool_decide as Hinput; [|apply filterEffect_ok].
  split; [|done]. cbn [Autocomplete.filteredOptions].
  rewrite Hsync at 1. symmetry. by apply filterEffect_input.
Qed.

(** X15. The [Autocomplete] component, after its first render, after every
    event and after every change of the value it is given, shows the list that the text in the input selects from the
    options, and highlights either nothing or an entry of that list; and
    whatever value it passes to [onChange], by key, by click or by typing,
    is [null] or one of the options. *)
Theorem autocomplete_step_ok (Number : string → number)
    (options : list number) (value : option number)
    (ev : Autocomplete.event) (st : Autocomplete.state) :
  autocomplete_ok options (Autocomplete.mounted options value)
  ∧ (autocomplete_ok options st →
     autocomplete_ok options (Autocomplete.valueChanged options value st)
     ∧ autocomplete_ok options (Autocomplete.step Number options value ev st).1
     ∧ ∀ v, (Autocomplete.step Number options value ev st).2 = Some (Some v)
            → v ∈ options).
Proof.
  split; [apply filterEffect_ok|].
  intros Hok. split; [by apply valueChanged_ok|]. by apply step_facts.
Qed.

Lemma autocomplete_step_ok_witness :
  let options := [Num 12; Num 21; Num 3] in
  let st := Autocomplete.mounted options None in
  let Number : string → number := λ _, Num 21 in
  autocomplete_ok options st
  ∧ autocomplete_ok options (Autocomplete.valueChanged options None st)
  ∧ autocomplete_ok options
      (Autocomplete.step Number options None (Autocomplete.InputChange "21") st).1
  ∧ ∀ v, (Autocomplete.step Number options None
            (Autocomplete.InputChange "21") st).2 = Some (Some v)
         → v ∈ options.
Proof.
  pose proof (autocomplete_step_ok (λ _, Num 21) [Num 12; Num 21; Num 3] None
                (Autocomplete.InputChange "21")
                (Autocomplete.mounted [Num 12; Num 21; Num 3] None))
    as [H1 H2].
  exact (conj H1 (H2 H1)).
Defined.

(** ** From the widget to the assignment *)

(** X16. In the student table, a score that the [Autocomplete] of a row passes
    on is always assigned: when the Results are those of the current
    hierarchy, the student of that row ends up with this total score and
    with item scores that sum to it, so that the branch of
    [updateStudentTotalScore] that silently ignores a score without
    decomposition is never taken from the table. *)
Theorem row_event_assigns (Number : string → number) (index : nat)
    (ev : Autocomplete.event) (ast : Autocomplete.state) (st : AppState)
    (g : Js.rng) (r : Results) (student : Student) (score : number) :
  results_current st →
  results st = Some r →
  students st !! index = Some student →
  autocomplete_ok (totalResult r) ast →
  (Autocomplete.step Number (totalResult r) (totalScore student) ev ast).2
  = Some (Some score) →
  findItemCombinations score (itemResults r) ≠ []
  ∧ autocomplete_ok (totalResult r)
      (studentRowEvent Number index ev ast st g).1
  ∧ ∃ student',
      students (studentRowEvent Number index ev ast st g).2.1 !! index
      = Some student'
      ∧ id student' = id student
      ∧ name student' = name student
      ∧ totalScore student' = Some score
      ∧ total (itemScores student') = score.
Proof.
  intros Hcur Hr Hstudent Hok Hout.
  destruct (step_facts Number (totalResult r) (totalScore student) ev ast Hok)
    as [Hok' Hoptions].
  specialize (Hoptions score Hout).
  split.
  - unfold results_current in Hcur. rewrite Hr in Hcur. destruct Hcur as [Hv ->].
    apply validate_None, itemResults_positive in Hv.
    destruct (generated_sum_decomposes _ _ Hv Hoptions) as (t & choice & -> & Hc).
    intros Hnil. cbn [itemResults results_of] in Hnil. rewrite Hnil in Hc.
    by apply elem_of_nil in Hc.
  - unfold studentRowEvent. rewrite Hr, Hstudent.
    destruct (Autocomplete.step Number (totalResult r) (totalScore student)
                ev ast) as [ast' out].
    cbn [fst snd] in Hout, Hok'. subst out.
    destruct (updateStudentTotalScore_assigned (id student) score st g r
                Hcur Hr Hoptions)
      as (itemScores' & elementScores' & Hstudents & _ & Hsum & _).
    destruct (updateStudentTotalScore (id student) (Some score) st g)
      as [st' g'].
    cbn [fst snd] in *. rewrite Hstudents.
    rewrite list_lookup_fmap, Hstudent. cbn [fmap option_fmap option_map].
    rewrite Nat.eqb_refl. split.
    + case_bool_decide; [done|by apply valueChanged_ok].
    + eexists. by split_and!.
Qed.

Lemma row_event_assigns_witness :
  let st := addStudent assigned_state in
  let r := results_of [[[Num 3]]] in
  let ast := Autocomplete.mounted (totalResult r) None in
  let Number : string → number := λ _, Num 3 in
  let g : Js.rng := λ _, Js.Draw 0 0 in
  let student := mkStudent 2 "학생 2" None [] [] in
  (results_current st ∧ results st = Some r
   ∧ students st !! 1 = Some student
   ∧ autocomplete_ok (totalResult r) ast
   ∧ (Autocomplete.step Number (totalResult r) (totalScore student)
        (Autocomplete.InputChange "3") ast).2 = Some (Some (Num 3)))
  ∧ findItemCombinations (Num 3) (itemResults r) ≠ []
  ∧ autocomplete_ok (totalResult r)
      (studentRowEvent Number 1 (Autocomplete.InputChange "3") ast st g).1
  ∧ ∃ student',
      students (studentRowEvent Number 1 (Autocomplete.InputChange "3") ast st
                  g).2.1 !! 1
      = Some student'
      ∧ id student' = id student
      ∧ name student' = name student
      ∧ totalScore student' = Some (Num 3)
      ∧ total (itemScores student') = Num 3.
Proof.
  assert (H1 : results_current (addStudent assigned_state)) by (by split).
  assert (H4 : autocomplete_ok (totalResult (results_of [[[Num 3]]]))
                 (Autocomplete.mounted (totalResult (results_of [[[Num 3]]]))
                    None))
    by (split; [reflexivity|by left]).
  exact (conj (conj H1 (conj eq_refl (conj eq_refl (conj H4 eq_refl))))
           (row_event_assigns (λ _, Num 3) 1 (Autocomplete.InputChange "3")
              (Autocomplete.mounted (totalResult (results_of [[[Num 3]]])) None)
              (addStudent assigned_state) (λ _, Js.Draw 0 0)
              (results_of [[[Num 3]]]) (mkStudent 2 "학생 2" None [] [])
              (Num 3) H1 eq_refl eq_refl H4 eq_refl)).
Defined.

(** ** The outcome of a computation, and edits of one student *)


Lemma filter_other_ids (l : list Student) (i : nat) (s : Student) :
  NoDup (map id l) → l !! i = Some s →
  filter (λ s', id s' ≠ id s) l = delete i l.
Proof.
  revert i. induction l as [|s0 l IH]; intros i Hnodup Hi; [done|].
  cbn [map] in Hnodup. apply NoDup_cons in Hnodup as [Hfresh Hnodup].
  destruct i as [|i]; simpl in Hi.
  - injection Hi as ->. rewrite filter_cons_False by (intros Hne; by apply Hne).
    simpl. clear IH. induction l as [|s1 l IHl]; [done|].
    cbn [map] in Hfresh, Hnodup.
    apply not_elem_of_cons in Hfresh as [Hne Hfresh].
    apply NoDup_cons in Hnodup as [_ Hnodup].
    rewrite filter_cons_True by (intros Heq; by apply Hne). f_equal.
    by apply IHl.
  - rewrite filter_cons_True.
    + simpl. f_equal. by apply IH.
    + intros Heq. apply Hfresh. rewrite Heq.
      apply list_elem_of_fmap. exists s. split; [done|].
      by eapply list_elem_of_lookup_2.
Qed.

Lemma map_rename_one (l : list Student) (i : nat) (s : Student)
    (new : Student → Student) :
  NoDup (map id l) → l !! i = Some s →
  map (λ s', if (id s' =? id s)%nat then new s' else s') l = <[i := new s]> l.
Proof.
  revert i. induction l as [|s0 l IH]; intros i Hnodup Hi; [done|].
  cbn [map] in Hnodup. apply NoDup_cons in Hnodup as [Hfresh Hnodup].
  destruct i as [|i]; simpl in Hi.
  - injection Hi as ->. cbn [map]. rewrite Nat.eqb_refl. simpl. f_equal.
    clear IH. induction l as [|s1 l IHl]; [done|].
    cbn [map] in Hfresh, Hnodup.
    apply not_elem_of_cons in Hfresh as [Hne Hfresh].
    apply NoDup_cons in Hnodup as [_ Hnodup].
    cbn [map]. replace (id s1 =? id s)%nat with false.
    + f_equal. by apply IHl.
    + symmetry. apply Nat.eqb_neq. by intros Heq.
  - cbn [map]. replace (id s0 =? id s)%nat with false.
    + simpl. f_equal. by apply IH.
    + symmetry. apply Nat.eqb_neq. intros Heq. apply Hfresh. rewrite Heq.
      apply list_elem_of_fmap. exists s. split; [done|].
      by eapply list_elem_of_lookup_2.
Qed.

(** X18. When the identifiers of the students are distinct, [removeStudent]
    on the identifier of the student at a position removes exactly that
    position, and [updateStudentName] changes exactly the name at that
    position. *)
Theorem student_row_edits_exact (st : AppState) (index : nat)
    (student : Student) (new_name : string) :
  NoDup (map id (students st)) →
  students st !! index = Some student →
  students (removeStudent (id student) st) = delete index (students st)
  ∧ students (updateStudentName (id student) new_name st)
    = <[index := mkStudent (id student) new_name (totalScore student)
                   (itemScores student) (elementScores student)]>
        (students st).
Proof.
  intros Hnodup Hstudent. split.
  - cbn [removeStudent students setStudents]. by apply filter_other_ids.
  - cbn [updateStudentName students setStudents].
    by rewrite (map_rename_one _ index student
                  (λ s, mkStudent (id s) new_name (totalScore s) (itemScores s)
                          (elementScores s))).
Qed.

Lemma student_row_edits_exact_witness :
  let st := addStudent assigned_state in
  let student := mkStudent 2 "학생 2" None [] [] in
  (NoDup (map id (students st)) ∧ students st !! 1 = Some student)
  ∧ students (removeStudent (id student) st) = delete 1 (students st)
  ∧ students (updateStudentName (id student) "Kim" st)
    = <[1 := mkStudent (id student) "Kim" (totalScore student)
                (itemScores student) (elementScores student)]>
        (students st).
Proof.
  assert (H1 : NoDup (map id (students (addStudent assigned_state)))).
  { apply (NoDup_cons_2 1 [2]); [|apply NoDup_singleton].
    intros [=]%list_elem_of_singleton. }
  exact (conj (conj H1 eq_refl)
           (student_row_edits_exact (addStudent assigned_state) 1
              (mkStudent 2 "학생 2" None [] []) "Kim" H1 eq_refl)).
Defined.

(** ** The scenarios of the specification *)

Example scenario_one_item_sums :
  calculateCartesianSum [[Num 1; Num 2]; [Num 10; Num 20]]
  = [Num 22; Num 21; Num 12; Num 11].
Proof. reflexivity. Qed.

Example scenario_one_item_decompose_21 :
  findElementCombinations (Num 21) [[Num 1; Num 2]; [Num 10; Num 20]]
  = [[Num 1; Num 20]].
Proof. reflexivity. Qed.

Example scenario_one_item_decompose_5 :
  findElementCombinations (Num 5) [[Num 1; Num 2]; [Num 10; Num 20]] = [].
Proof. reflexivity. Qed.

Example scenario_two_items_results :
  results_of [[[Num 1; Num 2]]; [[Num 1; Num 2]]]
  = mkResults [[Num 2; Num 1]; [Num 2; Num 1]] [Num 4; Num 3; Num 2].
Proof. reflexivity. Qed.

Example scenario_two_items_decompose_3 :
  findItemCombinations (Num 3) [[Num 2; Num 1]; [Num 2; Num 1]]
  = [[Num 2; Num 1]; [Num 1; Num 2]].
Proof. reflexivity. Qed.

Example scenario_empty_groups : calculateCartesianSum [] = [].
Proof. reflexivity. Qed.
